(** * itch: choosing and launching a native executable

    A shallow embedding of [appsrc/tasks/launch/native.js] (candidate
    scoring and ranking, command-line quoting, process launch) and of
    [ensureArray] from the API client, with the properties stated about
    them. *)

From Stdlib Require Import List ZArith NArith Bool Ascii String Lia.
From Stdlib Require Import Permutation Sorted DecimalString SpecFloat.
From Stdlib Require DecimalPos DecimalZ.
Import ListNotations.

Set Implicit Arguments.
Set Warnings "-register-all".

(** ** JavaScript strings

    A JavaScript string is a finite sequence of UTF-16 code units. *)

Module Js.

Definition str := list N.

(** The code units of an ASCII literal. *)
Definition lit (s : string) : str :=
  map N_of_ascii (list_ascii_of_string s).

Definition eqb (a b : str) : bool :=
  if list_eq_dec N.eq_dec a b then true else false.

(** [Array.prototype.join] on an array of strings. *)
Fixpoint join (sep : str) (parts : list str) : str :=
  match parts with
  | [] => []
  | [p] => p
  | p :: rest => p ++ sep ++ join sep rest
  end.

(** [String.prototype.split] with a one-character separator: the pieces
    between the occurrences of [sep]. *)
Fixpoint split (sep : N) (s : str) : list str :=
  match s with
  | [] => [[]]
  | c :: rest =>
      if N.eqb c sep then [] :: split sep rest
      else match split sep rest with
           | [] => [[c]]
           | w :: ws => (c :: w) :: ws
           end
  end.

(** The decimal rendering of an integer, as a template literal gives it. *)
Definition of_Z (z : Z) : str :=
  lit (NilZero.string_of_int (Z.to_int z)).

(** Case mapping restricted to the letters A-Z. *)
Definition lower_unit (c : N) : N :=
  if (65 <=? c)%N && (c <=? 90)%N then (c + 32)%N else c.

Definition upper_unit (c : N) : N :=
  if (97 <=? c)%N && (c <=? 122)%N then (c - 32)%N else c.

End Js.

(** ** Regular expressions

    The fragment of the regular-expression language used by the launcher's
    patterns: literals, [.], alternation, [?], [*], and the anchors [^] and
    [$] at the ends of a pattern.  [test] decides whether some substring of
    the subject matches, by Brzozowski derivatives. *)

Module Regex.

Inductive regex : Type :=
| Void
| Eps
| Class (p : N -> bool)
| Cat (r s : regex)
| Alt (r s : regex)
| Star (r : regex).

Fixpoint nullable (r : regex) : bool :=
  match r with
  | Void => false
  | Eps => true
  | Class _ => false
  | Cat r s => nullable r && nullable s
  | Alt r s => nullable r || nullable s
  | Star _ => true
  end.

Fixpoint deriv (c : N) (r : regex) : regex :=
  match r with
  | Void => Void
  | Eps => Void
  | Class p => if p c then Eps else Void
  | Cat r s =>
      if nullable r then Alt (Cat (deriv c r) s) (deriv c s)
      else Cat (deriv c r) s
  | Alt r s => Alt (deriv c r) (deriv c s)
  | Star r => Cat (deriv c r) (Star r)
  end.

(** The words of a regular expression. *)
Inductive matches : regex -> Js.str -> Prop :=
| MEps : matches Eps []
| MClass (p : N -> bool) (c : N) : p c = true -> matches (Class p) [c]
| MCat (r s : regex) (u v : Js.str) :
    matches r u -> matches s v -> matches (Cat r s) (u ++ v)
| MAltL (r s : regex) (u : Js.str) : matches r u -> matches (Alt r s) u
| MAltR (r s : regex) (u : Js.str) : matches s u -> matches (Alt r s) u
| MStarNil (r : regex) : matches (Star r) []
| MStarApp (r : regex) (u v : Js.str) :
    matches r u -> matches (Star r) v -> matches (Star r) (u ++ v).

(** Deciding that the whole of [s] is a word of [r]. *)
Fixpoint full_match (r : regex) (s : Js.str) : bool :=
  match s with
  | [] => nullable r
  | c :: rest => full_match (deriv c r) rest
  end.

(** A literal character, matched exactly. *)
Definition chr (c : N) : regex := Class (N.eqb c).

(** A literal character under the [i] flag: both sides are canonicalised
    with the upper-case mapping; for a pattern character in ASCII only its
    two ASCII cases are accepted. *)
Definition chr_i (c : N) : regex :=
  Class (fun x => N.eqb (Js.upper_unit x) (Js.upper_unit c)).

(** [.]: any code unit but a line terminator (LF, CR, U+2028, U+2029). *)
Definition dot : regex :=
  Class (fun x => negb (N.eqb x 10 || N.eqb x 13 || N.eqb x 8232 || N.eqb x 8233)).

Definition anything : regex := Star (Class (fun _ => true)).

Definition opt (r : regex) : regex := Alt r Eps.

Fixpoint seq_of (f : N -> regex) (s : Js.str) : regex :=
  match s with
  | [] => Eps
  | [c] => f c
  | c :: rest => Cat (f c) (seq_of f rest)
  end.

Definition text (s : string) : regex := seq_of chr (Js.lit s).
Definition text_i (s : string) : regex := seq_of chr_i (Js.lit s).

(** A sufficient condition, read off the expression, for each of its
    words to hold the code unit [c]. *)
Fixpoint must_contain (c : N) (r : regex) : Prop :=
  match r with
  | Void => True
  | Eps => False
  | Class p => forall x, p x = true -> x = c
  | Cat r s => must_contain c r \/ must_contain c s
  | Alt r s => must_contain c r /\ must_contain c s
  | Star _ => False
  end.

(** A pattern: its body and whether it starts with [^] and ends with [$]. *)
Record pattern : Type := Pattern {
  at_start : bool;
  body : regex;
  at_end : bool
}.

(** [RegExp.prototype.test]: some substring matches the body, starting at
    the beginning when the pattern has [^] and ending at the end when it
    has [$] (no [m] flag). *)
Definition test (p : pattern) (s : Js.str) : bool :=
  full_match
    (Cat (if at_start p then Eps else anything)
         (Cat (body p) (if at_end p then Eps else anything)))
    s.

End Regex.

(** ** The shell tokenizer *)

Module ShellQuote.

Inductive result : Type :=
| Tokens (ts : list Js.str)
| Unterminated        (* the line ends inside a quoted word *)
| Expansion           (* a word refers to a variable *)
| Unsupported.        (* syntax outside the modelled fragment *)

Definition dquote : N := 34.
Definition backslash : N := 92.
Definition dollar : N := 36.

Definition is_space (c : N) : bool :=
  N.eqb c 32 || N.eqb c 9 || N.eqb c 10.

(** Single quote, backslash, dollar sign, operators, comment and glob
    characters, when they stand outside double quotes. *)
Definition is_special (c : N) : bool :=
  existsb (N.eqb c) (Js.lit "'\$|&;()<>#*?").

Definition push (c : N) (word : option Js.str) : option Js.str :=
  match word with
  | Some w => Some (w ++ [c])
  | None => Some [c]
  end.

Definition flush (word : option Js.str) (done : list Js.str) : list Js.str :=
  match word with
  | Some w => w :: done
  | None => done
  end.

(** Modelled from the spec: the shell-argument tokenizer, [parse] of the
    [shell-quote] package, which is not under src/. The spec has command
    lines made of words joined by single spaces, each word wrapped in
    double quotes with its inner double quotes backslash-escaped. The
    model reads a line by the shell's rules for such words: white space
    separates words; a double quote opens and closes a quoted stretch, in
    which white space is kept; inside the quotes a backslash in front of a
    double quote, a backslash or a dollar sign gives that character, and
    in front of anything else stays; a dollar sign refers to a variable.
    [word] is the word being read ([None] between words), [done] the
    words read so far, last first. *)
Fixpoint scan (quoted : bool) (word : option Js.str) (done : list Js.str)
    (s : Js.str) : result :=
  match s with
  | [] => if quoted then Unterminated else Tokens (rev (flush word done))
  | c :: rest =>
      if quoted then
        if N.eqb c dquote then scan false word done rest
        else if N.eqb c backslash then
          match rest with
          | [] => Unterminated
          | d :: rest' =>
              if N.eqb d dquote || N.eqb d backslash || N.eqb d dollar
              then scan true (push d word) done rest'
              else scan true (push d (push backslash word)) done rest'
          end
        else if N.eqb c dollar then Expansion
        else scan true (push c word) done rest
      else
        if is_space c then scan false None (flush word done) rest
        else if N.eqb c dquote then
          scan true (Some (match word with Some w => w | None => [] end))
               done rest
        else if is_special c then Unsupported
        else scan false (push c word) done rest
  end.

Definition parse (s : Js.str) : result := scan false None [] s.

(** The tokens as an array, empty outside the modelled fragment. *)
Definition tokens (s : Js.str) : list Js.str :=
  match parse s with
  | Tokens ts => ts
  | _ => []
  end.

(** Deciding that an argument holds no dollar sign and that each of its
    backslashes is followed by a code unit that is neither a double quote
    nor a backslash. *)
Fixpoint quotable (arg : Js.str) : bool :=
  match arg with
  | [] => true
  | c :: rest =>
      if N.eqb c dollar then false
      else if N.eqb c backslash then
        match rest with
        | [] => false
        | d :: _ =>
            negb (N.eqb d dquote || N.eqb d backslash) && quotable rest
        end
      else quotable rest
  end.

End ShellQuote.

(** ** The API client's [ensureArray] *)

Module Api.

(** The values a response body is made of, and [undefined] for a missing
    key. A number is an IEEE 754 double. *)
Inductive value : Type :=
| Undefined
| Null
| Boolean (b : bool)
| Number (x : spec_float)
| String (s : Js.str)
| Array (items : list value)
| Object (props : list (Js.str * value)).

(** [ToBoolean]: the falsy values are [undefined], [null], [false], zero
    of either sign, [NaN] and the empty string. *)
Definition toBoolean (v : value) : bool :=
  match v with
  | Undefined | Null => false
  | Boolean b => b
  | Number (S754_zero _) | Number S754_nan => false
  | Number _ => true
  | String s => negb (Nat.eqb (List.length s) 0)
  | Array _ | Object _ => true
  end.

Definition number_of_nat (n : nat) : spec_float :=
  match N.of_nat n with
  | N0 => S754_zero false
  | Npos p => S754_finite false p 0
  end.

Fixpoint lookup (key : Js.str) (props : list (Js.str * value)) : value :=
  match props with
  | [] => Undefined
  | (k, v) :: rest => if Js.eqb k key then v else lookup key rest
  end.

(** [v.length] for a [v] that is neither [undefined] nor [null]: the
    length of a string or of an array, the property of an object, and
    [undefined] on a boolean or a number. *)
Definition length_of (v : value) : value :=
  match v with
  | String s => Number (number_of_nat (List.length s))
  | Array items => Number (number_of_nat (List.length items))
  | Object props => lookup (Js.lit "length") props
  | _ => Undefined
  end.

(** [ensureArray]; [||] does not read [v.length] when [!v] holds. *)
Definition ensureArray (v : value) : value :=
  if negb (toBoolean v) then Array []
  else if negb (toBoolean (length_of v)) then Array []
  else v.

(** How the evaluation of an expression ends: with a value, or with a
    [TypeError]. *)
Inductive completion : Type :=
| Returns (v : value)
| Throws.

(** [typeof v === "object"], which holds of [null] too. *)
Definition typeof_object (v : value) : bool :=
  match v with
  | Null | Array _ | Object _ => true
  | _ => false
  end.

(** Reading a property that is neither [length] nor an index: a
    [TypeError] on [undefined] and [null], the property of an object,
    [undefined] on anything else. *)
Definition get (key : string) (v : value) : option value :=
  match v with
  | Undefined | Null => None
  | Object props => Some (lookup (Js.lit key) props)
  | _ => Some Undefined
  end.

(** [v === "..."] for a string literal. *)
Definition is_string (v : value) (s : string) : bool :=
  match v with
  | String t => Js.eqb t (Js.lit s)
  | _ => false
  end.

(** [/getaddrinfo/] *)
Definition re_getaddrinfo : Regex.pattern :=
  Regex.Pattern false (Regex.text "getaddrinfo") false.

Section NetworkError.

(** [ToString], which [RegExp.prototype.test] applies to its argument;
    [None] when the conversion throws. *)
Variable ToString : value -> option Js.str.

(** [Client.isNetworkError]: [a && b] is [a] when [a] is falsy and [b]
    otherwise; [a || b] is [a] when [a] is truthy and [b] otherwise. *)
Definition isNetworkError (errorObject : value) : completion :=
  if negb (typeof_object errorObject) then Returns (Boolean false)
  else
    match get "code" errorObject with
    | None => Throws
    | Some code =>
        if negb (toBoolean code) then Returns code
        else if is_string code "ENOTFOUND" then Returns (Boolean true)
        else if is_string code "ECONNRESET" then Returns (Boolean true)
        else if is_string code "ENOENT" then
          match get "message" errorObject with
          | None => Throws
          | Some message =>
              match ToString message with
              | None => Throws
              | Some text => Returns (Boolean (Regex.test re_getaddrinfo text))
              end
          end
        else Returns (Boolean false)
    end.

End NetworkError.

End Api.

(** ** The candidate scorer *)

Module Native.

Import Regex.

(** [/unins.*\.exe$/i] *)
Definition re_unins : pattern :=
  Pattern false (Cat (text_i "unins") (Cat (Star dot) (text_i ".exe"))) true.

(** [/^kick\.bin/i] *)
Definition re_kick : pattern := Pattern true (text_i "kick.bin") false.

(** [/nwjc\.exe$/i] *)
Definition re_nwjc : pattern := Pattern false (text_i "nwjc.exe") true.

(** [/dxwebsetup\.exe$/i] *)
Definition re_dxwebsetup : pattern :=
  Pattern false (text_i "dxwebsetup.exe") true.

(** [/vcredist.*\.exe$/i] *)
Definition re_vcredist : pattern :=
  Pattern false (Cat (text_i "vcredist") (Cat (Star dot) (text_i ".exe"))) true.

(** [/\.(so|dylib)/] *)
Definition re_shared : pattern :=
  Pattern false (Cat (text ".") (Alt (text "so") (text "dylib"))) false.

(** [/\.sh/] *)
Definition re_sh : pattern := Pattern false (text ".sh") false.

(** [/\.jar$/i] *)
Definition re_jar : pattern := Pattern false (text_i ".jar") true.

(** [/\.app\/?$/] *)
Definition re_app : pattern :=
  Pattern false (Cat (text ".app") (opt (text "/"))) true.

(** The body of the loop of [computeScore]: the score given to a path. *)
Definition scoreOf (path : Js.str) : Z :=
  let score := 100%Z in
  let score := if test re_unins path then (score - 50)%Z else score in
  let score := if test re_kick path then (score - 50)%Z else score in
  let score := if test re_nwjc path then (score - 20)%Z else score in
  let score := if test re_dxwebsetup path then 0%Z else score in
  let score := if test re_vcredist path then 0%Z else score in
  let score := if test re_shared path then 0%Z else score in
  let score := if test re_sh path then (score + 20)%Z else score in
  score.

(** *** Candidates

    A candidate is the object [{path}] to which the stages of the pipeline
    attach [weight], [score] and [depth]; a field holds 0 until its stage
    has assigned it, and no stage reads a field before that. *)
Record candidate : Type := Candidate {
  path : Js.str;
  weight : Z;
  score : Z;
  depth : Z
}.

Definition set_weight (w : Z) (exe : candidate) : candidate :=
  Candidate (path exe) w (score exe) (depth exe).

Definition set_score (s : Z) (exe : candidate) : candidate :=
  Candidate (path exe) (weight exe) s (depth exe).

Definition set_depth (d : Z) (exe : candidate) : candidate :=
  Candidate (path exe) (weight exe) (score exe) d.

(** [computeScore]: every candidate gets its score, and those with a
    positive score are pushed to the output, in order. *)
Fixpoint computeScore (execs : list candidate) : list candidate :=
  match execs with
  | [] => []
  | exe :: rest =>
      let score := scoreOf (path exe) in
      let exe := set_score score exe in
      if (score >? 0)%Z then exe :: computeScore rest else computeScore rest
  end.

(** *** Errors and outcomes *)

(** What the launcher throws: [new Crash({exePath, error})], [new Error]
    (with its [reason] property when one is set), a failed [invariant],
    or an exception raised inside a collaborator. *)
Inductive error : Type :=
| Crash (exePath : Js.str) (reason : Js.str)
| Error (message : Js.str) (reason : option (list Js.str))
| InvariantViolation (message : Js.str)
| HostException.

(** A resolved promise on the right, a rejected one on the left. *)
Definition outcome : Type := (error + Js.str)%type.

(** *** Collaborators

    The modules the launcher imports and that are not part of it: [path],
    [os], [sf], [spawn], [shell-quote], [pathmaker], the sandbox template
    and [JSON]. *)

Record spawn_request : Type := SpawnRequest {
  command : option Js.str;      (* [undefined] when there is no token *)
  args : list Js.str;
  cwd : option Js.str
}.

Record spawn_result : Type := SpawnResult {
  code : Z;
  out_tokens : list Js.str;
  err_tokens : list Js.str
}.

(** Reading [JSON.parse(out)['CFBundleExecutable']]. *)
Inductive plist_lookup : Type :=
| ParseFails                 (* the parse or the property read throws *)
| NotAString                 (* [undefined] or another non-string value *)
| Found (exec : Js.str).

Record cave : Type := Cave {
  executables : list Js.str
}.

Record options : Type := Options {
  opt_cave : option cave;
  isolateApps : bool
}.

Record host : Type := Host {
  os_platform : Js.str;
  path_join : list Js.str -> Js.str;
  path_dirname : Js.str -> Js.str;
  path_normalize : Js.str -> Js.str;
  path_sep : N;
  (* the size reported by [sf.stat], [None] when the probe fails *)
  sf_stat : Js.str -> option Z;
  (* [false] when [sf.writeFile] rejects *)
  sf_writeFile : Js.str -> Js.str -> bool;
  spawn : spawn_request -> spawn_result;
  shellQuote_parse : Js.str -> list Js.str;
  plist_executable : Js.str -> plist_lookup;
  (* [sandboxTemplate.replace(/{{INSTALL_LOCATION}}/, appPath)] *)
  sandbox_source : Js.str -> Js.str;
  pathmaker_appPath : cave -> Js.str
}.

(** [escape]: every double quote gets a backslash in front of it and the
    whole is wrapped in double quotes. *)
Definition escape_body (arg : Js.str) : Js.str :=
  flat_map (fun c => if N.eqb c 34 then [92; 34]%N else [c]) arg.

Definition escape (arg : Js.str) : Js.str :=
  [34%N] ++ escape_body arg ++ [34%N].

(** Stable insertion: an element goes in front of the first one whose
    key is not smaller. *)
Fixpoint insert_by (key : candidate -> Z) (x : candidate)
    (l : list candidate) : list candidate :=
  match l with
  | [] => [x]
  | y :: rest =>
      if (key x <=? key y)%Z then x :: y :: rest
      else y :: insert_by key x rest
  end.

(** Modelled from the spec: [sortBy] of the [underline] package, which is
    not under src/. The spec has each of the three sorts a full, stable
    sort, ascending on its key; the elements are inserted from the last
    to the first, each in front of those with an equal key. *)
Fixpoint sortBy (key : candidate -> Z) (l : list candidate) : list candidate :=
  match l with
  | [] => []
  | x :: rest => insert_by key x (sortBy key rest)
  end.

(** The three sorts of [launch], in the order they are applied. *)
Definition rank (candidates : list candidate) : list candidate :=
  let candidates := sortBy (fun x => (- weight x)%Z) candidates in
  let candidates := sortBy (fun x => (- score x)%Z) candidates in
  let candidates := sortBy (fun x => depth x) candidates in
  candidates.

(** Ascending on [key], and by [R] where the keys are equal. *)
Definition lex (key : candidate -> Z) (R : candidate -> candidate -> Prop)
    (x y : candidate) : Prop :=
  (key x < key y)%Z \/ (key x = key y /\ R x y).

(** The order that the three sorts of [launch] build up: depth, then
    falling score, then falling weight. *)
Definition by_keys : candidate -> candidate -> Prop :=
  lex (fun x => depth x)
      (lex (fun x => (- score x)%Z)
           (lex (fun x => (- weight x)%Z) (fun _ _ => True))).

(** [x] may stand in front of [y] in the ranking: it is shallower, or as
    deep with a higher score, or as deep and as well scored with at least
    the weight. *)
Definition outranks (x y : candidate) : Prop :=
  (depth x < depth y)%Z
  \/ (depth x = depth y
      /\ ((score y < score x)%Z
          \/ (score x = score y /\ (weight y <= weight x)%Z))).

(** The candidates that carry the weight [w], the score [s] and the
    depth [d]. *)
Definition same_keys (w s d : Z) (x : candidate) : bool :=
  (weight x =? w)%Z && (score x =? s)%Z && (depth x =? d)%Z.

(** [isAppBundle]: the pattern is tested on the lower-cased path; no
    character outside A-Z lower-cases to one of [.], [a], [p], [/]. *)
Definition isAppBundle (exePath : Js.str) : bool :=
  test re_app (map Js.lower_unit exePath).

Section Launcher.

Variable H : host.

(** [sh]: tokenize the command, spawn it in the directory of the
    executable, and turn the exit code into the outcome. *)
Definition sh (exePath fullCommand : Js.str) : outcome :=
  let cwd := path_dirname H exePath in
  let args := shellQuote_parse H fullCommand in
  let command := hd_error args in
  let args := tl args in
  let code := code (spawn H (SpawnRequest command args (Some cwd))) in
  if negb (code =? 0)%Z then
    let error := Js.lit "process exited with code " ++ Js.of_Z code in
    inl (Crash exePath error)
  else inr (Js.lit "child completed successfully").

(** [computeWeight]: the probes run concurrently (at most four at a time)
    and each one pushes its candidate when it completes, so the output is
    in completion order. [order] lists the positions of the candidates in
    the order in which their probes complete. *)
Definition probe (appPath : Js.str) (exe : candidate) : list candidate :=
  let exePath := path_join H [appPath; path exe] in
  match sf_stat H exePath with
  | Some size => [set_weight size exe]
  | None => []
  end.

Definition computeWeight (appPath : Js.str) (order : list nat)
    (execs : list candidate) : list candidate :=
  flat_map (fun i => match nth_error execs i with
                     | Some exe => probe appPath exe
                     | None => []
                     end) order.

(** [path.normalize(exe.path).split(path.sep).length] *)
Definition depthOf (p : Js.str) : Z :=
  Z.of_nat (List.length (Js.split (path_sep H) (path_normalize H p))).

Definition computeDepth (execs : list candidate) : list candidate :=
  map (fun exe => set_depth (depthOf (path exe)) exe) execs.

Definition getFullExec (exePath : Js.str) : error + Js.str :=
  let plistPath :=
    path_join H [exePath; Js.lit "Contents"; Js.lit "Info.pList"] in
  let r := spawn H (SpawnRequest (Some (Js.lit "plutil"))
                      [Js.lit "-convert"; Js.lit "json"; Js.lit "-o";
                       Js.lit "-"; plistPath] None) in
  let out := List.concat (map (fun tok => tok ++ [10%N]) (out_tokens r)) in
  if negb (code r =? 0)%Z then
    inl (Error (Js.lit "plutil failed with code " ++ Js.of_Z (code r)) None)
  else
    match plist_executable H out with
    | ParseFails =>
        inl (Error (Js.lit "invalid app bundle " ++ exePath
                    ++ Js.lit ": couldn't parse metadata") None)
    | NotAString => inl HostException   (* [path.join] refuses it *)
    | Found exec =>
        inr (path_join H [exePath; Js.lit "Contents"; Js.lit "MacOS"; exec])
    end.

Definition launchExecutable (exePath : Js.str) (args : list Js.str)
    (opts : options) : outcome :=
  let platform := os_platform H in
  let argString := Js.join (Js.lit " ") (map escape args) in
  if Js.eqb platform (Js.lit "darwin") && isAppBundle exePath then
    match getFullExec exePath with
    | inl e => inl e
    | inr fullExec =>
        let cmd := escape fullExec ++ Js.lit " " ++ argString in
        if isolateApps opts then
          match opt_cave opts with
          | None => inl HostException
          | Some cave =>
              let appPath := pathmaker_appPath H cave in
              let sandboxProfilePath :=
                path_join H [appPath; Js.lit ".itch"; Js.lit "isolate-app.sb"] in
              let sandboxSource := sandbox_source H appPath in
              if sf_writeFile H sandboxProfilePath sandboxSource then
                sh fullExec (Js.lit "sandbox-exec -f "
                             ++ escape sandboxProfilePath ++ Js.lit " "
                             ++ cmd ++ Js.lit "}")
              else inl HostException
          end
        else sh exePath cmd
    end
  else
    let cmd := escape exePath in
    let cmd := if (0 <? List.length argString)%nat
               then cmd ++ Js.lit " " ++ argString else cmd in
    sh exePath cmd.

(** The candidates of [launch] before the sorts: one object per declared
    executable, then the stat, score and depth stages. *)
Definition candidatesOf (appPath : Js.str) (order : list nat)
    (paths : list Js.str) : list candidate :=
  let candidates := map (fun p => Candidate p 0 0 0) paths in
  let candidates := computeWeight appPath order candidates in
  let candidates := computeScore candidates in
  let candidates := computeDepth candidates in
  candidates.

(** The candidates of the stat stage that the score stage keeps and
    that end with the weight [w], the score [s] and the depth [d]. *)
Definition kept_with_keys (w s d : Z) (x : candidate) : bool :=
  (scoreOf (path x) >? 0)%Z
  && ((weight x =? w)%Z && (scoreOf (path x) =? s)%Z
      && (depthOf (path x) =? d)%Z).

(** The declared paths that get the weight [w], the score [s] and the
    depth [d], and are kept by the stat and score stages. *)
Definition keys_of_path (appPath : Js.str) (w s d : Z) (p : Js.str) : bool :=
  match sf_stat H (path_join H [appPath; p]) with
  | Some size =>
      (scoreOf p >? 0)%Z
      && ((size =? w)%Z && (scoreOf p =? s)%Z && (depthOf p =? d)%Z)
  | None => false
  end.

(** [launch]; [order] is the completion order of the stat probes. *)
Definition launch (order : list nat) (opts : options) : outcome :=
  match opt_cave opts with
  | None => inl (InvariantViolation (Js.lit "launch-native has cave"))
  | Some cave =>
      let appPath := pathmaker_appPath H cave in
      let candidates := candidatesOf appPath order (executables cave) in
      let candidates := rank candidates in
      match candidates with
      | [] =>
          inl (Error (Js.lit "After weighing/sorting, no executables left")
                     (Some [Js.lit "game.install.no_executables_found"]))
      | first :: _ =>
          let exePath := path_join H [appPath; path first] in
          if test re_jar exePath then
            launchExecutable (Js.lit "java") [Js.lit "-jar"; exePath] opts
          else launchExecutable exePath [] opts
      end
  end.

End Launcher.

(** *** A sample host

    A POSIX-like set of collaborators over a table of file sizes, with a
    child process that exits with [exit_code]. *)

Fixpoint size_in (files : list (Js.str * Z)) (p : Js.str) : option Z :=
  match files with
  | [] => None
  | (q, size) :: rest => if Js.eqb q p then Some size else size_in rest p
  end.

Definition sample_host (files : list (Js.str * Z)) (exit_code : Z) : host :=
  {| os_platform := Js.lit "linux";
     path_join := Js.join (Js.lit "/");
     path_dirname := fun _ => Js.lit "/games/app";
     path_normalize := fun p => p;
     path_sep := 47;
     sf_stat := size_in files;
     sf_writeFile := fun _ _ => true;
     spawn := fun _ => SpawnResult exit_code [] [];
     shellQuote_parse := ShellQuote.tokens;
     plist_executable := fun _ => ParseFails;
     sandbox_source := fun p => p;
     pathmaker_appPath := fun _ => Js.lit "/games/app" |}.

End Native.

(** * Properties *)

Import Native.

Local Open Scope Z_scope.

(** ** The matcher *)

Section Matcher.

Import Regex.

Lemma cat_inv (r s : regex) (w : Js.str) :
  matches (Cat r s) w ->
  exists u v, w = u ++ v /\ matches r u /\ matches s v.
Proof.
  intros Hm. inversion Hm; subst. eauto.
Qed.

Lemma alt_inv (r s : regex) (w : Js.str) :
  matches (Alt r s) w -> matches r w \/ matches s w.
Proof.
  intros Hm. inversion Hm; subst; [left | right]; assumption.
Qed.

Lemma nullable_spec (r : regex) : nullable r = true <-> matches r [].
Proof.
  induction r as [| |p|r IHr s IHs|r IHr s IHs|r IHr]; simpl.
  - split; [discriminate | intros Hm; inversion Hm].
  - split; [intros _; constructor | reflexivity].
  - split; [discriminate | intros Hm; inversion Hm].
  - rewrite andb_true_iff, IHr, IHs. split.
    + intros [Hr Hs]. apply (MCat Hr Hs).
    + intros Hm. apply cat_inv in Hm as [u [v [Heq [Hu Hv]]]].
      symmetry in Heq. apply app_eq_nil in Heq as [-> ->].
      split; assumption.
  - rewrite orb_true_iff, IHr, IHs. split.
    + intros [Hr|Hs]; [apply MAltL | apply MAltR]; assumption.
    + apply alt_inv.
  - split; [intros _; constructor | reflexivity].
Qed.

(** A non-empty word of a starred expression starts with a non-empty
    word of the expression. *)
Lemma star_cons_inv (r : regex) (w : Js.str) :
  matches (Star r) w ->
  forall c s, w = c :: s ->
  exists u v, s = u ++ v /\ matches r (c :: u) /\ matches (Star r) v.
Proof.
  intros Hm. remember (Star r) as e eqn:He.
  induction Hm as [| | | | | r0 | r0 u v Hu _ Hv IHv]; try discriminate.
  injection He as ->. intros c s Heq.
  destruct u as [|c' u'].
  - simpl in Heq. apply (IHv eq_refl c s Heq).
  - simpl in Heq. injection Heq as -> <-.
    exists u', v. repeat split; assumption.
Qed.

Lemma deriv_spec (r : regex) (c : N) (s : Js.str) :
  matches (deriv c r) s <-> matches r (c :: s).
Proof.
  revert s.
  induction r as [| |p|r IHr t IHt|r IHr t IHt|r IHr]; intros s; simpl.
  - split; intros Hm; inversion Hm.
  - split; intros Hm; inversion Hm.
  - destruct (p c) eqn:Hp; split; intros Hm.
    + inversion Hm; subst. constructor. exact Hp.
    + inversion Hm; subst. constructor.
    + inversion Hm.
    + inversion Hm; subst. congruence.
  - assert (Hleft : forall w, matches (Cat (deriv c r) t) w
                              -> matches (Cat r t) (c :: w)).
    { intros w Hm. apply cat_inv in Hm as [u [v [-> [Hu Hv]]]].
      apply IHr in Hu. apply (MCat Hu Hv). }
    assert (Hinv : matches (Cat r t) (c :: s) ->
                   matches (Cat (deriv c r) t) s
                   \/ (matches r [] /\ matches (deriv c t) s)).
    { intros Hm. apply cat_inv in Hm as [u [v [Heq [Hu Hv]]]].
      destruct u as [|c' u'].
      - simpl in Heq. subst v. right. split; [exact Hu | apply IHt, Hv].
      - simpl in Heq. injection Heq as -> ->.
        left. apply MCat; [apply IHr, Hu | exact Hv]. }
    destruct (nullable r) eqn:Hnull; split; intros Hm.
    + apply alt_inv in Hm as [Hm|Hm]; [apply Hleft; assumption|].
      apply nullable_spec in Hnull.
      apply (@MCat r t [] (c :: s)); [exact Hnull | apply IHt; assumption].
    + destruct (Hinv Hm) as [Hl|[_ Hr]]; [apply MAltL | apply MAltR];
        assumption.
    + apply Hleft, Hm.
    + destruct (Hinv Hm) as [Hl|[Hnil _]]; [exact Hl|].
      apply nullable_spec in Hnil. congruence.
  - split; intros Hm.
    + apply alt_inv in Hm as [Hm|Hm];
        [apply MAltL, IHr | apply MAltR, IHt]; assumption.
    + apply alt_inv in Hm as [Hm|Hm];
        [apply MAltL, IHr | apply MAltR, IHt]; assumption.
  - split; intros Hm.
    + apply cat_inv in Hm as [u [v [-> [Hu Hv]]]].
      apply IHr in Hu. apply (MStarApp Hu Hv).
    + destruct (star_cons_inv Hm eq_refl) as [u [v [-> [Hu Hv]]]].
      apply MCat; [apply IHr, Hu | exact Hv].
Qed.

(** The matcher decides the words of an expression. *)
Lemma full_match_spec (r : regex) (s : Js.str) :
  full_match r s = true <-> matches r s.
Proof.
  revert r. induction s as [|c s IH]; intros r; simpl.
  - apply nullable_spec.
  - rewrite IH. apply deriv_spec.
Qed.

Lemma matches_anything (s : Js.str) : matches anything s.
Proof.
  unfold anything. induction s as [|c s IH].
  - constructor.
  - apply (@MStarApp _ [c] s); [constructor; reflexivity | exact IH].
Qed.

(** [test] holds when a stretch of the subject is a word of the body,
    from the very start under [^] and up to the very end under [$]. *)
Lemma test_spec (p : pattern) (s : Js.str) :
  test p s = true <->
  exists pre mid post,
    s = pre ++ mid ++ post /\ matches (body p) mid
    /\ (at_start p = true -> pre = []) /\ (at_end p = true -> post = []).
Proof.
  unfold test. rewrite full_match_spec. split.
  - intros Hm. apply cat_inv in Hm as [pre [rest [-> [Hpre Hrest]]]].
    apply cat_inv in Hrest as [mid [post [-> [Hmid Hpost]]]].
    exists pre, mid, post. repeat split; try assumption.
    + intros Hs. rewrite Hs in Hpre. inversion Hpre. reflexivity.
    + intros He. rewrite He in Hpost. inversion Hpost. reflexivity.
  - intros [pre [mid [post [-> [Hmid [Hs He]]]]]].
    apply MCat; [|apply MCat; [exact Hmid|]].
    + destruct (at_start p); [rewrite Hs by reflexivity; constructor|].
      apply matches_anything.
    + destruct (at_end p); [rewrite He by reflexivity; constructor|].
      apply matches_anything.
Qed.

(** A literal text has itself as its only word. *)
Lemma matches_text (s w : Js.str) :
  s <> [] -> (matches (seq_of chr s) w <-> w = s).
Proof.
  revert w. induction s as [|c s IH]; intros w Hne; [contradiction|].
  assert (Hchr : forall u, matches (chr c) u <-> u = [c]).
  { intros u. unfold chr. split.
    - intros Hm. inversion Hm as [|p d Hd| | | | |]; subst.
      apply N.eqb_eq in Hd. subst d. reflexivity.
    - intros ->. constructor. apply N.eqb_refl. }
  destruct s as [|c' s'].
  - simpl. apply Hchr.
  - change (seq_of chr (c :: c' :: s'))
      with (Cat (chr c) (seq_of chr (c' :: s'))).
    split.
    + intros Hm. apply cat_inv in Hm as [u [v [-> [Hu Hv]]]].
      apply Hchr in Hu. apply IH in Hv; [|discriminate]. subst. reflexivity.
    + intros ->. apply (@MCat _ _ [c] (c' :: s')).
      * apply Hchr. reflexivity.
      * apply IH; [discriminate | reflexivity].
Qed.

End Matcher.

(** The shell-script pattern has no anchor: it holds for every path with
    .sh anywhere in it. *)
Lemma test_re_sh (p : Js.str) :
  Regex.test re_sh p = true
  <-> exists pre post, p = pre ++ Js.lit ".sh" ++ post.
Proof.
  rewrite test_spec. simpl. split.
  - intros [pre [mid [post [-> [Hmid _]]]]].
    apply matches_text in Hmid; [|discriminate]. subst mid.
    exists pre, post. reflexivity.
  - intros [pre [post ->]]. exists pre, (Js.lit ".sh"), post.
    repeat split; try discriminate.
    apply matches_text; [discriminate | reflexivity].
Qed.

(** ** Scores *)

Lemma score_game : scoreOf (Js.lit "game.exe") = 100.
Proof. vm_compute. reflexivity. Qed.

Lemma score_unins000 : scoreOf (Js.lit "unins000.exe") = 50.
Proof. vm_compute. reflexivity. Qed.

Lemma computeScore_scores (execs : list candidate) :
  Forall (fun x => 0 < score x /\ score x = scoreOf (path x))
         (computeScore execs).
Proof.
  induction execs as [|exe rest IH]; simpl.
  - constructor.
  - destruct (Z.gtb_spec (scoreOf (path exe)) 0) as [Hpos|Hneg].
    + constructor; [simpl; split; [lia | reflexivity] | exact IH].
    + exact IH.
Qed.

Lemma computeScore_paths (execs : list candidate) :
  map path (computeScore execs)
  = filter (fun p => scoreOf p >? 0) (map path execs).
Proof.
  induction execs as [|exe rest IH]; simpl; [reflexivity|].
  destruct (scoreOf (path exe) >? 0); simpl; rewrite IH; reflexivity.
Qed.

(** ** The stable sort *)

Lemma insert_by_perm (key : candidate -> Z) (x : candidate) (l : list candidate) :
  Permutation (insert_by key x l) (x :: l).
Proof.
  induction l as [|y rest IH]; simpl.
  - apply Permutation_refl.
  - destruct (key x <=? key y).
    + apply Permutation_refl.
    + eapply perm_trans; [apply perm_skip, IH | apply perm_swap].
Qed.

Lemma sortBy_perm (key : candidate -> Z) (l : list candidate) :
  Permutation (sortBy key l) l.
Proof.
  induction l as [|x rest IH]; simpl.
  - apply perm_nil.
  - eapply perm_trans; [apply insert_by_perm | apply perm_skip, IH].
Qed.

Lemma insert_by_sorted (key : candidate -> Z) (x : candidate)
    (l : list candidate) :
  Sorted (fun a b => key a <= key b) l ->
  Sorted (fun a b => key a <= key b) (insert_by key x l).
Proof.
  induction l as [|y rest IH]; intros Hsorted; simpl.
  - repeat constructor.
  - destruct (Z.leb_spec (key x) (key y)) as [Hle|Hgt].
    + constructor; [exact Hsorted | constructor; exact Hle].
    + apply Sorted_inv in Hsorted as [Hrest Hhd].
      constructor; [apply IH, Hrest|].
      destruct rest as [|z rest']; simpl.
      * constructor. lia.
      * destruct (Z.leb_spec (key x) (key z)); constructor; [lia|].
        apply HdRel_inv in Hhd. exact Hhd.
Qed.

(** [sortBy] sorts: its output is ascending on the key. *)
Lemma sortBy_sorted (key : candidate -> Z) (l : list candidate) :
  Sorted (fun a b => key a <= key b) (sortBy key l).
Proof.
  induction l as [|x rest IH]; simpl.
  - constructor.
  - apply insert_by_sorted, IH.
Qed.

Lemma rank_perm (l : list candidate) : Permutation (rank l) l.
Proof.
  unfold rank.
  eapply perm_trans; [apply sortBy_perm|].
  eapply perm_trans; [apply sortBy_perm|].
  apply sortBy_perm.
Qed.

(** Inserting leaves the elements of one key class in their order: the
    new element goes in front of the class when it belongs to it. *)
Lemma filter_insert_by (key : candidate -> Z) (p : candidate -> bool) (k : Z)
    (x : candidate) (l : list candidate) :
  (forall y, p y = true -> key y = k) ->
  filter p (insert_by key x l) = filter p (x :: l).
Proof.
  intros Hclass. induction l as [|y rest IH]; [reflexivity|].
  simpl insert_by. destruct (Z.leb_spec (key x) (key y)) as [Hle|Hgt].
  - reflexivity.
  - simpl in *. destruct (p x) eqn:Hx, (p y) eqn:Hy; rewrite IH; try reflexivity.
    apply Hclass in Hx. apply Hclass in Hy. lia.
Qed.

Lemma filter_sortBy (key : candidate -> Z) (p : candidate -> bool) (k : Z)
    (l : list candidate) :
  (forall y, p y = true -> key y = k) ->
  filter p (sortBy key l) = filter p l.
Proof.
  intros Hclass. induction l as [|x rest IH]; [reflexivity|].
  simpl sortBy. rewrite (filter_insert_by key p x (sortBy key rest) Hclass).
  simpl. rewrite IH. reflexivity.
Qed.

Lemma same_keys_spec (w s d : Z) (x : candidate) :
  same_keys w s d x = true -> weight x = w /\ score x = s /\ depth x = d.
Proof.
  unfold same_keys. intros Hx.
  apply andb_prop in Hx as [Hx Hd]. apply andb_prop in Hx as [Hw Hs].
  repeat split; apply Z.eqb_eq; assumption.
Qed.

Lemma filter_rank (w s d : Z) (l : list candidate) :
  filter (same_keys w s d) (rank l) = filter (same_keys w s d) l.
Proof.
  unfold rank.
  rewrite (@filter_sortBy (fun x => depth x) _ d).
  2: { intros y Hy. apply same_keys_spec in Hy. tauto. }
  rewrite (@filter_sortBy (fun x => - score x) _ (- s)).
  2: { intros y Hy. apply same_keys_spec in Hy. lia. }
  rewrite (@filter_sortBy (fun x => - weight x) _ (- w)).
  2: { intros y Hy. apply same_keys_spec in Hy. lia. }
  reflexivity.
Qed.

(** ** The stat stage *)

Lemma computeWeight_in_order (H : host) (appPath : Js.str)
    (execs : list candidate) :
  computeWeight H appPath (seq 0 (List.length execs)) execs
  = flat_map (probe H appPath) execs.
Proof.
  unfold computeWeight. induction execs as [|exe rest IH]; [reflexivity|].
  simpl. f_equal. rewrite <- seq_shift, <- IH.
  rewrite !flat_map_concat_map, map_map. reflexivity.
Qed.

Lemma probe_path (H : host) (appPath : Js.str) (exe x : candidate) :
  In x (probe H appPath exe) -> path x = path exe.
Proof.
  unfold probe. destruct (sf_stat H _); simpl; [|tauto].
  intros [<-|[]]. reflexivity.
Qed.

Lemma computeDepth_paths (H : host) (l : list candidate) :
  map path (computeDepth H l) = map path l.
Proof.
  unfold computeDepth. rewrite map_map. reflexivity.
Qed.

(** In completion order [0, 1, ...] the pipeline keeps the declared
    paths in their order. *)
Lemma candidatesOf_in_order (H : host) (appPath : Js.str) (w s d : Z)
    (paths : list Js.str) :
  map path (filter (same_keys w s d)
              (candidatesOf H appPath (seq 0 (List.length paths)) paths))
  = filter (keys_of_path H appPath w s d) paths.
Proof.
  unfold candidatesOf.
  replace (List.length paths)
    with (List.length (map (fun p => Candidate p 0 0 0) paths))
    by apply length_map.
  rewrite computeWeight_in_order.
  induction paths as [|p rest IH]; [reflexivity|].
  simpl. unfold probe at 1, keys_of_path at 1. simpl.
  destruct (sf_stat H (path_join H [appPath; p])) as [size|]; simpl.
  - destruct (scoreOf p >? 0); simpl; [|exact IH].
    unfold same_keys at 1. simpl.
    destruct ((size =? w) && (scoreOf p =? s) && (depthOf H p =? d));
      simpl; rewrite IH; reflexivity.
  - exact IH.
Qed.

(** ** Ranking *)

Lemma candidatesOf_two (H : host) (appPath : Js.str) (order : list nat)
    (p q : Js.str) (wp wq : Z) :
  Permutation order [0%nat; 1%nat] ->
  sf_stat H (path_join H [appPath; p]) = Some wp ->
  sf_stat H (path_join H [appPath; q]) = Some wq ->
  0 < scoreOf p -> 0 < scoreOf q ->
  let cp := Candidate p wp (scoreOf p) (depthOf H p) in
  let cq := Candidate q wq (scoreOf q) (depthOf H q) in
  candidatesOf H appPath order [p; q] = [cp; cq]
  \/ candidatesOf H appPath order [p; q] = [cq; cp].
Proof.
  intros Hperm Hp Hq Sp Sq cp cq.
  apply Permutation_sym, Permutation_length_2_inv in Hperm.
  apply Z.gtb_lt in Sp, Sq.
  destruct Hperm as [-> | ->]; [left | right];
    unfold candidatesOf, computeWeight, probe; simpl;
    rewrite Hp, Hq; simpl; rewrite Sp, Sq; reflexivity.
Qed.

(** C1. With game.exe (500 bytes) and unins000.exe (600 bytes) declared
    at equal depth, the uninstaller scores 50 and the game 100; the sort
    on weight puts unins000.exe first, the sort on score then puts
    game.exe first, the sort on depth keeps that, and the head is
    game.exe, in whichever order the two stat probes complete. *)
Theorem ranking_example (H : host) (appPath : Js.str) (order : list nat) :
  let game := Js.lit "game.exe" in
  let unins := Js.lit "unins000.exe" in
  let candidates := candidatesOf H appPath order [game; unins] in
  let by_weight := sortBy (fun x => - weight x) candidates in
  let by_score := sortBy (fun x => - score x) by_weight in
  let by_depth := sortBy (fun x => depth x) by_score in
  Permutation order [0%nat; 1%nat] ->
  sf_stat H (path_join H [appPath; game]) = Some 500 ->
  sf_stat H (path_join H [appPath; unins]) = Some 600 ->
  depthOf H game = depthOf H unins ->
  scoreOf unins = 50 /\ scoreOf game = 100
  /\ map path by_weight = [unins; game]
  /\ map path by_score = [game; unins]
  /\ map path by_depth = [game; unins]
  /\ by_depth = rank candidates
  /\ option_map path (hd_error (rank candidates)) = Some game.
Proof.
  intros game unins candidates by_weight by_score by_depth
         Hperm Hgame Hunins Hdepth.
  subst game unins.
  assert (Hcases := @candidatesOf_two H appPath order _ _ 500 600
                      Hperm Hgame Hunins).
  rewrite score_game, score_unins000 in Hcases.
  specialize (Hcases eq_refl eq_refl). cbv zeta in Hcases.
  rewrite <- Hdepth in Hcases.
  split; [exact score_unins000|]. split; [exact score_game|].
  assert (Hrank : by_depth = rank candidates) by reflexivity.
  rewrite <- Hrank.
  subst by_depth by_score by_weight candidates.
  destruct Hcases as [-> | ->]; simpl; rewrite Z.leb_refl;
    repeat split; reflexivity.
Qed.

Lemma ranking_example_witness :
  let H := sample_host [(Js.lit "/games/app/game.exe", 500);
                        (Js.lit "/games/app/unins000.exe", 600)] 0 in
  let candidates :=
    candidatesOf H (Js.lit "/games/app") [1%nat; 0%nat]
                 [Js.lit "game.exe"; Js.lit "unins000.exe"] in
  map path (rank candidates) = [Js.lit "game.exe"; Js.lit "unins000.exe"].
Proof.
  intros H candidates.
  refine (proj1 (proj2 (proj2 (proj2 (proj2
    (@ranking_example H (Js.lit "/games/app") [1%nat; 0%nat] _ _ _ _)))))).
  - apply perm_swap.
  - reflexivity.
  - reflexivity.
  - reflexivity.
Defined.

(** ** The range of the score *)

(** A plain shell script gets the bonus on top of the base score, and a
    path that matches the three penalties goes below zero. *)
Lemma score_range_counterexample :
  ~ (0 <= scoreOf (Js.lit "run.sh") <= 100)
  /\ ~ (0 <= scoreOf (Js.lit "kick.bin/uninsnwjc.exe") <= 100).
Proof.
  split; vm_compute; intros [Hlo Hhi];
    [apply Hhi | apply Hlo]; reflexivity.
Qed.

(** C2, as amended. The score of every path lies between -20 and 120,
    and both bounds are reached: 120 by run.sh, -20 by
    kick.bin/uninsnwjc.exe. *)
Theorem score_range (p : Js.str) :
  -20 <= scoreOf p <= 120
  /\ scoreOf (Js.lit "run.sh") = 120
  /\ scoreOf (Js.lit "kick.bin/uninsnwjc.exe") = -20.
Proof.
  split; [|split; vm_compute; reflexivity].
  unfold scoreOf.
  destruct (Regex.test re_unins p), (Regex.test re_kick p),
    (Regex.test re_nwjc p), (Regex.test re_dxwebsetup p),
    (Regex.test re_vcredist p), (Regex.test re_shared p),
    (Regex.test re_sh p); cbv zeta; lia.
Qed.

(** ** The rules that force the score to zero *)

(** C3, on the code. libfoo.so.sh matches the shared-library pattern and
    vcredist.sh.exe the redistributable one; both match the shell-script
    pattern as well, end with the score 20 and are kept by the scorer. *)
Theorem forced_zero_then_bonus :
  let lib := Js.lit "libfoo.so.sh" in
  let redist := Js.lit "vcredist.sh.exe" in
  Regex.test re_shared lib = true /\ Regex.test re_sh lib = true
  /\ Regex.test re_vcredist redist = true /\ Regex.test re_sh redist = true
  /\ scoreOf lib = 20 /\ scoreOf redist = 20
  /\ computeScore [Candidate lib 1 0 0; Candidate redist 1 0 0]
     = [Candidate lib 1 20 0; Candidate redist 1 20 0].
Proof.
  vm_compute. repeat split; reflexivity.
Qed.

(** Without the shell-script pattern the forced zero stands. *)
Lemma forced_zero_without_bonus (p : Js.str) :
  (Regex.test re_dxwebsetup p || Regex.test re_vcredist p
   || Regex.test re_shared p) = true ->
  Regex.test re_sh p = false ->
  scoreOf p = 0.
Proof.
  unfold scoreOf. intros Hforce Hsh. rewrite Hsh.
  destruct (Regex.test re_unins p), (Regex.test re_kick p),
    (Regex.test re_nwjc p), (Regex.test re_dxwebsetup p),
    (Regex.test re_vcredist p), (Regex.test re_shared p);
    cbv zeta; simpl in Hforce; try reflexivity; discriminate.
Qed.

(** ** Dropped candidates *)

Lemma rank_paths (l : list candidate) (p : Js.str) :
  In p (map path (rank l)) <-> In p (map path l).
Proof.
  split; apply Permutation_in, Permutation_map;
    [apply rank_perm | apply Permutation_sym, rank_perm].
Qed.

(** C4. A path whose score is zero or less is the path of no candidate
    in the output of the scorer, and of none in the ranked output; every
    candidate the scorer lets through carries a positive score. *)
Theorem nonpositive_score_dropped (H : host) (appPath : Js.str)
    (order : list nat) (paths : list Js.str) (execs : list candidate)
    (p : Js.str) :
  scoreOf p <= 0 ->
  ~ In p (map path (computeScore execs))
  /\ ~ In p (map path (rank (candidatesOf H appPath order paths)))
  /\ Forall (fun x => 0 < score x) (computeScore execs)
  /\ Forall (fun x => 0 < score x)
            (rank (candidatesOf H appPath order paths)).
Proof.
  intros Hp.
  assert (Hdrop : forall l, ~ In p (map path (computeScore l))).
  { intros l Hin. rewrite computeScore_paths in Hin.
    apply filter_In in Hin as [_ Hpos]. apply Z.gtb_lt in Hpos. lia. }
  assert (Hpos : forall l, Forall (fun x => 0 < score x) (computeScore l)).
  { intros l. eapply Forall_impl; [|apply computeScore_scores].
    intros x [Hx _]. exact Hx. }
  split; [apply Hdrop|]. split.
  - rewrite rank_paths. unfold candidatesOf.
    rewrite computeDepth_paths. apply Hdrop.
  - split; [apply Hpos|].
    apply Forall_forall. intros x Hin.
    apply (Permutation_in _ (rank_perm _)) in Hin.
    unfold candidatesOf, computeDepth in Hin.
    apply in_map_iff in Hin as [y [<- Hy]]. simpl.
    specialize (Hpos (computeWeight H appPath order
                        (map (fun p => Candidate p 0 0 0) paths))).
    rewrite Forall_forall in Hpos. apply Hpos, Hy.
Qed.

Lemma nonpositive_score_dropped_witness :
  let H := sample_host [(Js.lit "/games/app/libfoo.so", 900);
                        (Js.lit "/games/app/game", 100)] 0 in
  let paths := [Js.lit "libfoo.so"; Js.lit "game"] in
  scoreOf (Js.lit "libfoo.so") <= 0
  /\ ~ In (Js.lit "libfoo.so")
         (map path (rank (candidatesOf H (Js.lit "/games/app")
                            [0%nat; 1%nat] paths)))
  /\ map path (rank (candidatesOf H (Js.lit "/games/app")
                       [0%nat; 1%nat] paths)) = [Js.lit "game"].
Proof.
  intros H paths.
  assert (Hscore : scoreOf (Js.lit "libfoo.so") <= 0)
    by (vm_compute; discriminate).
  split; [exact Hscore|]. split.
  - exact (proj1 (proj2 (@nonpositive_score_dropped H (Js.lit "/games/app")
                           [0%nat; 1%nat] paths [] _ Hscore))).
  - vm_compute. reflexivity.
Defined.

(** ** Stability of the ranking *)

(** Two declared executables of equal size, score and depth whose probes
    complete in the opposite order come out in that opposite order. *)
Lemma ranking_input_order_counterexample :
  let a := Js.lit "a.exe" in
  let b := Js.lit "b.exe" in
  let H := sample_host [(Js.lit "/games/app/a.exe", 10);
                        (Js.lit "/games/app/b.exe", 10)] 0 in
  let appPath := Js.lit "/games/app" in
  let order := [1%nat; 0%nat] in
  Permutation order (seq 0 (List.length [a; b]))
  /\ filter (keys_of_path H appPath 10 100 1) [a; b] = [a; b]
  /\ map path (filter (same_keys 10 100 1)
                 (rank (candidatesOf H appPath order [a; b]))) = [b; a]
  /\ map path (filter (same_keys 10 100 1)
                 (rank (candidatesOf H appPath order [a; b])))
     <> filter (keys_of_path H appPath 10 100 1) [a; b].
Proof.
  split; [apply perm_swap|].
  split; [vm_compute; reflexivity|].
  split; [vm_compute; reflexivity|].
  vm_compute. discriminate.
Qed.

Lemma pipeline_keys (H : host) (w s d : Z) (l : list candidate) :
  map path (filter (same_keys w s d) (computeDepth H (computeScore l)))
  = map path (filter (kept_with_keys H w s d) l).
Proof.
  induction l as [|x rest IH]; [reflexivity|].
  simpl. unfold kept_with_keys at 1.
  destruct (scoreOf (path x) >? 0); simpl; [|exact IH].
  unfold same_keys at 1. simpl.
  destruct ((weight x =? w) && (scoreOf (path x) =? s)
            && (depthOf H (path x) =? d)); simpl; rewrite IH; reflexivity.
Qed.

(** C5, as amended. The candidates of equal weight, score and depth are
    in the ranked output in the order in which the stat stage pushed
    them, which is the order in which their probes completed; when the
    probes complete in the order of the declared paths, that is the order
    of the declared paths. *)
Theorem ranking_stable (H : host) (appPath : Js.str) (order : list nat)
    (paths : list Js.str) (w s d : Z) :
  let ranked := rank (candidatesOf H appPath order paths) in
  let stat_output :=
    computeWeight H appPath order (map (fun p => Candidate p 0 0 0) paths) in
  filter (same_keys w s d) ranked
  = filter (same_keys w s d) (candidatesOf H appPath order paths)
  /\ map path (filter (same_keys w s d) ranked)
     = map path (filter (kept_with_keys H w s d) stat_output)
  /\ map path (filter (same_keys w s d)
                (rank (candidatesOf H appPath
                         (seq 0 (List.length paths)) paths)))
     = filter (keys_of_path H appPath w s d) paths.
Proof.
  intros ranked stat_output. subst ranked.
  rewrite !filter_rank. split; [reflexivity|]. split.
  - apply pipeline_keys.
  - apply candidatesOf_in_order.
Qed.

(** ** Quoting *)

Import ShellQuote.

Lemma escape_body_cons (c : N) (arg : Js.str) :
  escape_body (c :: arg)
  = (if N.eqb c dquote then [backslash; dquote] else [c]) ++ escape_body arg.
Proof. reflexivity. Qed.

(** Inside the quotes the tokenizer reads the escaped body of an
    argument without backslash or dollar sign back as the argument. *)
Lemma scan_escape_body (arg : Js.str) :
  ~ In backslash arg -> ~ In dollar arg ->
  forall (w : Js.str) (done : list Js.str) (rest : Js.str),
    scan true (Some w) done (escape_body arg ++ rest)
    = scan true (Some (w ++ arg)) done rest.
Proof.
  induction arg as [|c arg IH]; intros Hbs Hdollar w done rest.
  - rewrite app_nil_r. reflexivity.
  - assert (Hc1 : c <> backslash) by (intros ->; apply Hbs; left; reflexivity).
    assert (Hc2 : c <> dollar) by (intros ->; apply Hdollar; left; reflexivity).
    assert (Hbs' : ~ In backslash arg) by (intros Hin; apply Hbs; right; exact Hin).
    assert (Hdollar' : ~ In dollar arg)
      by (intros Hin; apply Hdollar; right; exact Hin).
    rewrite escape_body_cons.
    replace (w ++ c :: arg) with ((w ++ [c]) ++ arg)
      by (rewrite <- app_assoc; reflexivity).
    destruct (N.eqb_spec c dquote) as [->|Hq].
    + simpl. apply IH; assumption.
    + simpl.
      apply N.eqb_neq in Hq, Hc1, Hc2. rewrite Hq, Hc1, Hc2.
      apply IH; assumption.
Qed.

(** A lone backslash escapes to a quoted word that never closes, and a
    dollar sign inside the quotes is read as a reference to a variable. *)
Lemma escape_parse_counterexample :
  parse (escape [backslash]) <> Tokens [[backslash]]
  /\ parse (escape (Js.lit "$HOME")) <> Tokens [Js.lit "$HOME"].
Proof.
  split; vm_compute; discriminate.
Qed.

Lemma quotable_spec (arg : Js.str) :
  quotable arg = true
  <-> ~ In dollar arg
      /\ (forall before after,
            arg = before ++ backslash :: after ->
            exists d rest,
              after = d :: rest /\ d <> dquote /\ d <> backslash).
Proof.
  induction arg as [|c arg IH].
  - split; [|reflexivity]. intros _. split; [intros []|].
    intros [|b before] after Heq; discriminate.
  - simpl quotable. destruct (N.eqb_spec c dollar) as [->|Hdollar].
    { split; [discriminate|]. intros [Hno _]. exfalso. apply Hno.
      left. reflexivity. }
    assert (Htail : quotable arg = true ->
                    ~ In dollar (c :: arg)
                    /\ (forall before after,
                          c :: arg = (c :: before) ++ backslash :: after ->
                          exists d rest,
                            after = d :: rest /\ d <> dquote
                            /\ d <> backslash)).
    { intros Hq. apply IH in Hq as [Hno Hbs]. split.
      - intros [Hc|Hin]; [contradiction | apply Hno, Hin].
      - intros before after Heq. injection Heq as Heq. apply (Hbs _ _ Heq). }
    assert (Hback : ~ In dollar (c :: arg)
                    /\ (forall before after,
                          c :: arg = before ++ backslash :: after ->
                          exists d rest,
                            after = d :: rest /\ d <> dquote
                            /\ d <> backslash) ->
                    quotable arg = true).
    { intros [Hno Hbs]. apply IH. split.
      - intros Hin. apply Hno. right. exact Hin.
      - intros before after ->. apply (Hbs (c :: before) after). reflexivity. }
    destruct (N.eqb_spec c backslash) as [->|Hc].
    + destruct arg as [|d arg'].
      * split; [discriminate|]. intros [_ Hbs].
        destruct (Hbs [] [] eq_refl) as [d [rest [Heq _]]]. discriminate.
      * rewrite andb_true_iff, negb_true_iff, orb_false_iff,
          !N.eqb_neq. split.
        -- intros [[Hd1 Hd2] Hq]. destruct (Htail Hq) as [Hno Hbs].
           split; [exact Hno|]. intros [|b before] after Heq.
           ++ injection Heq as <-. exists d, arg'. repeat split; assumption.
           ++ injection Heq as <- Heq. apply (Hbs before after).
              simpl. rewrite Heq. reflexivity.
        -- intros Hprops. split; [|apply Hback, Hprops].
           destruct Hprops as [_ Hbs].
           destruct (Hbs [] (d :: arg') eq_refl) as [d' [rest [Heq [H1 H2]]]].
           injection Heq as <- _. split; assumption.
    + split.
      * intros Hq. destruct (Htail Hq) as [Hno Hbs].
        split; [exact Hno|]. intros [|b before] after Heq.
        -- injection Heq as Heq _. contradiction.
        -- injection Heq as <- Heq. apply (Hbs before after).
           simpl. rewrite Heq. reflexivity.
      * apply Hback.
Qed.

(** Inside the quotes the tokenizer reads the escaped body of such an
    argument back as the argument. *)
Lemma scan_escape_body_quotable (arg : Js.str) :
  quotable arg = true ->
  forall (w : Js.str) (done : list Js.str) (rest : Js.str),
    scan true (Some w) done (escape_body arg ++ rest)
    = scan true (Some (w ++ arg)) done rest.
Proof.
  induction arg as [|c arg IH]; intros Hq w done rest.
  - rewrite app_nil_r. reflexivity.
  - simpl quotable in Hq.
    destruct (N.eqb_spec c dollar) as [->|Hdollar]; [discriminate|].
    replace (w ++ c :: arg) with ((w ++ [c]) ++ arg)
      by (rewrite <- app_assoc; reflexivity).
    destruct (N.eqb_spec c backslash) as [->|Hbs].
    + destruct arg as [|d arg']; [discriminate|].
      apply andb_prop in Hq as [Hd Hq].
      apply negb_true_iff, orb_false_iff in Hd as [Hd1 Hd2].
      assert (Hd3 : N.eqb d dollar = false).
      { simpl quotable in Hq. destruct (N.eqb d dollar);
          [discriminate | reflexivity]. }
      rewrite <- (IH Hq (w ++ [backslash]) done rest).
      rewrite !escape_body_cons. rewrite Hd1. simpl.
      rewrite Hd1, Hd2, Hd3. simpl. reflexivity.
    + rewrite escape_body_cons.
      destruct (N.eqb_spec c dquote) as [->|Hquote].
      * simpl. apply IH, Hq.
      * simpl. apply N.eqb_neq in Hquote, Hbs, Hdollar.
        rewrite Hquote, Hbs, Hdollar. apply IH, Hq.
Qed.

(** C6, as amended. An argument that holds no dollar sign, and in which
    every backslash is followed by a code unit that is neither a double
    quote nor a backslash, comes back, once escaped and tokenized, as the
    single token it was: double quotes, white space and such backslashes
    included. *)
Theorem escape_parse_roundtrip (arg : Js.str) :
  ~ In dollar arg ->
  (forall before after,
      arg = before ++ backslash :: after ->
      exists d rest, after = d :: rest /\ d <> dquote /\ d <> backslash) ->
  parse (escape arg) = Tokens [arg].
Proof.
  intros Hdollar Hbs.
  assert (Hq : quotable arg = true)
    by (apply quotable_spec; split; assumption).
  unfold parse, escape.
  change ([34%N] ++ escape_body arg ++ [34%N])
    with (dquote :: (escape_body arg ++ [dquote])).
  change (scan false None [] (dquote :: escape_body arg ++ [dquote]))
    with (scan true (Some []) [] (escape_body arg ++ [dquote])).
  rewrite scan_escape_body_quotable by exact Hq.
  reflexivity.
Qed.

Lemma escape_parse_roundtrip_witness :
  let arg :=
    Js.lit "C:\Games\my " ++ [dquote] ++ Js.lit "best" ++ [dquote]
    ++ Js.lit " game\x.exe" in
  parse (escape arg) = Tokens [arg].
Proof.
  intros arg.
  assert (Hq : quotable arg = true) by (vm_compute; reflexivity).
  apply quotable_spec in Hq as [Hdollar Hbs].
  exact (escape_parse_roundtrip Hdollar Hbs).
Defined.

(** The tokenizer gives out no more code units than it reads, and none
    for a double quote: each one either delimits a quoted stretch or
    costs the backslash in front of it. *)
Lemma scan_length (n : nat) :
  forall (s : Js.str) (quoted : bool) (word : option Js.str)
         (done ts : list Js.str),
    (List.length s <= n)%nat ->
    scan quoted word done s = Tokens ts ->
    (List.length (List.concat ts) + count_occ N.eq_dec s dquote
     <= List.length (List.concat (flush word done)) + List.length s)%nat.
Proof.
  assert (Hrev : forall l : list Js.str,
             List.length (List.concat (rev l)) = List.length (List.concat l)).
  { intros l. induction l as [|x l IHl]; [reflexivity|].
    simpl. rewrite concat_app, !length_app, IHl. simpl.
    rewrite app_nil_r. lia. }
  assert (Hpush : forall c word done,
             List.length (List.concat (flush (push c word) done))
             = S (List.length (List.concat (flush word done)))).
  { intros c [w|] done; simpl; rewrite ?length_app; simpl; lia. }
  induction n as [|n IH]; intros s quoted word done ts Hlen Hscan.
  - destruct s; [|simpl in Hlen; lia]. simpl in *.
    destruct quoted; [discriminate|]. injection Hscan as <-.
    rewrite Hrev. lia.
  - destruct s as [|c rest].
    { simpl in *. destruct quoted; [discriminate|]. injection Hscan as <-.
      rewrite Hrev. lia. }
    simpl in Hlen. simpl scan in Hscan. simpl count_occ. simpl List.length.
    destruct quoted.
    + destruct (N.eqb_spec c dquote) as [->|Hq].
      * apply IH in Hscan; [|lia].
        destruct (N.eq_dec dquote dquote); [lia | contradiction].
      * destruct (N.eq_dec c dquote) as [Heq|_]; [contradiction|].
        destruct (N.eqb_spec c backslash) as [->|Hb].
        -- destruct rest as [|d rest']; [discriminate|].
           simpl in Hlen. simpl count_occ. simpl List.length.
           destruct (N.eqb_spec d dquote) as [->|Hd].
           ++ simpl in Hscan. apply IH in Hscan; [|lia].
              rewrite Hpush in Hscan.
              destruct (N.eq_dec dquote dquote); lia.
           ++ destruct (N.eq_dec d dquote) as [Heq|_]; [contradiction|].
              simpl in Hscan.
              destruct (N.eqb d backslash || N.eqb d dollar);
                apply IH in Hscan; try lia;
                rewrite !Hpush in Hscan; lia.
        -- destruct (N.eqb c dollar); [discriminate|].
           apply IH in Hscan; [|lia]. rewrite Hpush in Hscan. lia.
    + destruct (is_space c).
      * apply IH in Hscan; [|lia]. simpl flush in Hscan at 1.
        destruct (N.eq_dec c dquote); lia.
      * destruct (N.eqb_spec c dquote) as [->|Hq].
        -- apply IH in Hscan; [|lia].
           destruct (N.eq_dec dquote dquote); [|contradiction].
           destruct word; simpl in *; lia.
        -- destruct (N.eq_dec c dquote) as [Heq|_]; [contradiction|].
           destruct (is_special c); [discriminate|].
           apply IH in Hscan; [|lia]. rewrite Hpush in Hscan. lia.
Qed.

Lemma escape_body_measure (arg : Js.str) :
  List.length (escape_body arg)
  = (List.length arg + count_occ N.eq_dec arg dquote)%nat
  /\ count_occ N.eq_dec (escape_body arg) dquote
     = count_occ N.eq_dec arg dquote.
Proof.
  induction arg as [|c arg [IHlen IHcount]]; [split; reflexivity|].
  rewrite escape_body_cons, length_app, count_occ_app, IHlen, IHcount.
  destruct (N.eqb_spec c dquote) as [->|Hne]; simpl.
  - destruct (N.eq_dec backslash dquote); [discriminate|].
    destruct (N.eq_dec dquote dquote); [|contradiction]. split; lia.
  - destruct (N.eq_dec c dquote); [contradiction|]. split; lia.
Qed.

(** What is left of a quoted word is read as at most the argument that
    was escaped. *)
Lemma scan_escape_body_bound (arg w : Js.str) (ts : list Js.str) :
  scan true (Some w) [] (escape_body arg ++ [dquote]) = Tokens ts ->
  (List.length (List.concat ts) <= List.length w + List.length arg)%nat.
Proof.
  intros Hscan. apply (@scan_length _ _ _ _ _ _ (Nat.le_refl _)) in Hscan.
  destruct (escape_body_measure arg) as [Hlen Hcount].
  rewrite count_occ_app, length_app, Hlen, Hcount in Hscan.
  simpl in Hscan. rewrite app_nil_r in Hscan.
  destruct (N.eq_dec dquote dquote); [lia | contradiction].
Qed.

Lemma scan_escape_body_fails (arg : Js.str) :
  quotable arg = false ->
  forall w : Js.str,
    scan true (Some w) [] (escape_body arg ++ [dquote]) <> Tokens [w ++ arg].
Proof.
  induction arg as [|c arg IH]; intros Hq w; [discriminate|].
  simpl quotable in Hq.
  assert (Hshort : forall (v : Js.str) (tail : Js.str),
             (List.length v + List.length tail
              < List.length (w ++ c :: arg))%nat ->
             scan true (Some v) [] (escape_body tail ++ [dquote])
             <> Tokens [w ++ c :: arg]).
  { intros v tail Hlt Hscan. apply scan_escape_body_bound in Hscan.
    simpl in Hscan. rewrite app_nil_r in Hscan. lia. }
  destruct (N.eqb_spec c dollar) as [->|Hdollar].
  { simpl. intros Hscan. discriminate Hscan. }
  destruct (N.eqb_spec c backslash) as [->|Hbs].
  - destruct arg as [|d arg'].
    { simpl. intros Hscan. discriminate Hscan. }
    rewrite !escape_body_cons.
    change (N.eqb backslash dquote) with false. cbv iota.
    destruct (N.eqb_spec d dquote) as [->|Hd1].
    { simpl. intros Hscan.
      apply (@scan_length _ _ _ _ _ _ (Nat.le_refl _)) in Hscan.
      destruct (escape_body_measure arg') as [Hlen Hcount].
      simpl in Hscan.
      rewrite count_occ_app, !length_app, Hlen, Hcount in Hscan.
      simpl in Hscan. lia. }
    destruct (N.eqb_spec d backslash) as [->|Hd2].
    { simpl. apply Hshort. rewrite !length_app. simpl. lia. }
    destruct (N.eqb_spec d dollar) as [->|Hd3].
    { simpl. apply Hshort. rewrite !length_app. simpl. lia. }
    assert (Hq' : quotable (d :: arg') = false).
    { exact Hq. }
    intros Hscan.
    apply (IH Hq' (w ++ [backslash])).
    rewrite <- app_assoc.
    change ([backslash] ++ d :: arg') with (backslash :: d :: arg').
    rewrite <- Hscan. rewrite escape_body_cons.
    apply N.eqb_neq in Hd1, Hd2, Hd3.
    assert (Hn1 : N.eqb d 34 = false) by exact Hd1.
    rewrite Hd1. simpl. rewrite ?Hd1, ?Hd2, ?Hd3, ?Hn1. simpl.
    rewrite ?Hd1, ?Hd2, ?Hd3, ?Hn1. reflexivity.
  - replace (w ++ c :: arg) with ((w ++ [c]) ++ arg)
      by (rewrite <- app_assoc; reflexivity).
    rewrite escape_body_cons.
    destruct (N.eqb_spec c dquote) as [->|Hquote].
    + simpl. apply IH, Hq.
    + simpl. apply N.eqb_neq in Hquote, Hbs, Hdollar.
      rewrite Hquote, Hbs, Hdollar. apply IH, Hq.
Qed.

(** The condition is the exact one under the model: any other argument
    does not come back as the token it was. *)
Lemma escape_parse_exact (arg : Js.str) :
  quotable arg = false -> parse (escape arg) <> Tokens [arg].
Proof.
  intros Hq. unfold parse, escape.
  change ([34%N] ++ escape_body arg ++ [34%N])
    with (dquote :: (escape_body arg ++ [dquote])).
  change (scan false None [] (dquote :: escape_body arg ++ [dquote]))
    with (scan true (Some []) [] (escape_body arg ++ [dquote])).
  apply (@scan_escape_body_fails arg Hq []).
Qed.

(** ** The outcome of a launch *)

(** C7. The [sh] step fails exactly when the child exits with a code
    other than zero, and the failure is then the crash that carries the
    path of the executable and the reason "process exited with code"
    followed by the code; it succeeds exactly when the code is zero, and
    the success is then the message "child completed successfully". *)
Theorem sh_outcome (H : host) (exePath fullCommand : Js.str) :
  let tokens := shellQuote_parse H fullCommand in
  let exit :=
    code (spawn H (SpawnRequest (hd_error tokens) (tl tokens)
                     (Some (path_dirname H exePath)))) in
  let crash :=
    Crash exePath (Js.lit "process exited with code " ++ Js.of_Z exit) in
  ((exists e, sh H exePath fullCommand = inl e) <-> exit <> 0)
  /\ (sh H exePath fullCommand = inl crash <-> exit <> 0)
  /\ ((exists m, sh H exePath fullCommand = inr m) <-> exit = 0)
  /\ (sh H exePath fullCommand = inr (Js.lit "child completed successfully")
      <-> exit = 0).
Proof.
  intros tokens exit crash. unfold sh. fold tokens. fold exit. fold crash.
  destruct (Z.eqb_spec exit 0) as [Hzero|Hnonzero]; simpl.
  - split; [split; [intros [e He]; discriminate | intros Hc; contradiction]|].
    split; [split; [discriminate | intros Hc; contradiction]|].
    split; [split; [intros _; exact Hzero | intros _; eexists; reflexivity]|].
    split; [intros _; exact Hzero | reflexivity].
  - split; [split; [intros _; exact Hnonzero | intros _; eexists; reflexivity]|].
    split; [split; [intros _; exact Hnonzero | reflexivity]|].
    split; [split; [intros [m Hm]; discriminate | intros Hc; contradiction]|].
    split; [discriminate | intros Hc; contradiction].
Qed.

Lemma sh_no_plain_error (H : host) (exePath fullCommand message : Js.str)
    (reason : option (list Js.str)) :
  sh H exePath fullCommand <> inl (Error message reason).
Proof.
  unfold sh. destruct (negb _); discriminate.
Qed.

(** No failure of [launchExecutable] carries a reason code. *)
Lemma launchExecutable_no_reason (H : host) (exePath : Js.str)
    (args : list Js.str) (opts : options) (message : Js.str)
    (reason : list Js.str) :
  launchExecutable H exePath args opts <> inl (Error message (Some reason)).
Proof.
  unfold launchExecutable, getFullExec.
  destruct (Js.eqb _ _ && isAppBundle exePath).
  - destruct (negb _); [discriminate|].
    destruct (plist_executable H _); try discriminate.
    destruct (isolateApps opts); [|apply sh_no_plain_error].
    destruct (opt_cave opts); [|discriminate].
    destruct (sf_writeFile H _ _); [apply sh_no_plain_error | discriminate].
  - apply sh_no_plain_error.
Qed.

(** C8. When the stat and score stages leave no candidate, [launch]
    fails with the error "After weighing/sorting, no executables left"
    whose reason is the code game.install.no_executables_found; no other
    failure of [launch] is an error that carries a reason. *)
Theorem no_executables_found (H : host) (order : list nat) (opts : options)
    (c : cave) :
  let appPath := pathmaker_appPath H c in
  let scored :=
    computeScore (computeWeight H appPath order
                    (map (fun p => Candidate p 0 0 0) (executables c))) in
  let failure :=
    Error (Js.lit "After weighing/sorting, no executables left")
          (Some [Js.lit "game.install.no_executables_found"]) in
  opt_cave opts = Some c ->
  (scored = [] -> launch H order opts = inl failure)
  /\ (forall message reason,
        launch H order opts = inl (Error message (Some reason)) ->
        scored = [] /\ Error message (Some reason) = failure).
Proof.
  intros appPath scored failure Hcave. unfold launch. rewrite Hcave.
  fold appPath. unfold candidatesOf. fold scored.
  split.
  - intros ->. reflexivity.
  - intros message reason.
    destruct (rank (computeDepth H scored)) as [|first others] eqn:Hrank.
    + intros Hfail. split.
      * assert (Hperm := rank_perm (computeDepth H scored)).
        rewrite Hrank in Hperm. apply Permutation_nil in Hperm.
        unfold computeDepth in Hperm. apply map_eq_nil in Hperm. exact Hperm.
      * injection Hfail as <- <-. reflexivity.
    + destruct (Regex.test re_jar _); intros Hfail;
        apply launchExecutable_no_reason in Hfail; contradiction.
Qed.

Lemma no_executables_found_witness :
  let H := sample_host [(Js.lit "/games/app/libfoo.so", 900)] 0 in
  let opts :=
    Options (Some (Cave [Js.lit "libfoo.so"; Js.lit "missing.exe"])) false in
  launch H [1%nat; 0%nat] opts
  = inl (Error (Js.lit "After weighing/sorting, no executables left")
               (Some [Js.lit "game.install.no_executables_found"])).
Proof.
  intros H opts.
  apply (proj1 (@no_executables_found H [1%nat; 0%nat] opts
                  (Cave [Js.lit "libfoo.so"; Js.lit "missing.exe"])
                  eq_refl)).
  vm_compute. reflexivity.
Defined.

(** ** Java archives *)

Lemma isAppBundle_java : isAppBundle (Js.lit "java") = false.
Proof. vm_compute. reflexivity. Qed.

(** C9. When the path chosen for launch, the install root joined with
    the path of the ranked head, ends in .jar in any letter case, the
    launch is the [sh] step for the executable java with the command line
    made of the quoted words java, -jar and the chosen path, in this
    order and with nothing after them. *)
Theorem jar_launch (H : host) (order : list nat) (opts : options) (c : cave)
    (first : candidate) (others : list candidate) :
  let appPath := pathmaker_appPath H c in
  let jarPath := path_join H [appPath; path first] in
  let commandLine :=
    escape (Js.lit "java") ++ Js.lit " " ++ escape (Js.lit "-jar")
    ++ Js.lit " " ++ escape jarPath in
  opt_cave opts = Some c ->
  rank (candidatesOf H appPath order (executables c)) = first :: others ->
  Regex.test re_jar jarPath = true ->
  launch H order opts = sh H (Js.lit "java") commandLine
  /\ commandLine
     = Js.join (Js.lit " ")
         (map escape [Js.lit "java"; Js.lit "-jar"; jarPath]).
Proof.
  intros appPath jarPath commandLine Hcave Hrank Hjar.
  split; [|reflexivity].
  unfold launch. rewrite Hcave. fold appPath. rewrite Hrank.
  fold jarPath. rewrite Hjar.
  unfold launchExecutable. rewrite isAppBundle_java, andb_false_r.
  reflexivity.
Qed.

Lemma jar_launch_witness :
  let H := sample_host [(Js.lit "/games/app/Game.JAR", 10)] 0 in
  let opts := Options (Some (Cave [Js.lit "Game.JAR"])) false in
  launch H [0%nat] opts
  = sh H (Js.lit "java")
       (escape (Js.lit "java") ++ Js.lit " " ++ escape (Js.lit "-jar")
        ++ Js.lit " " ++ escape (Js.lit "/games/app/Game.JAR")).
Proof.
  intros H opts.
  refine (proj1 (@jar_launch H [0%nat] opts (Cave [Js.lit "Game.JAR"])
                   (Candidate (Js.lit "Game.JAR") 10 100 1) []
                   eq_refl _ _)).
  - vm_compute. reflexivity.
  - vm_compute. reflexivity.
Defined.

(** The model tokenizer reads the command line of a Java launch as the
    three words java, -jar and the path. *)
Lemma scan_escaped_word (arg : Js.str) (done : list Js.str) (rest : Js.str) :
  ~ In backslash arg -> ~ In dollar arg ->
  scan false None done (escape arg ++ rest) = scan false (Some arg) done rest.
Proof.
  intros Hbs Hdollar. unfold escape.
  change (([34%N] ++ escape_body arg ++ [34%N]) ++ rest)
    with (dquote :: ((escape_body arg ++ [dquote]) ++ rest)).
  rewrite <- app_assoc.
  change (scan false None done (dquote :: escape_body arg ++ [dquote] ++ rest))
    with (scan true (Some []) done (escape_body arg ++ [dquote] ++ rest)).
  rewrite scan_escape_body by assumption. reflexivity.
Qed.

Lemma jar_command_tokens (jarPath : Js.str) :
  ~ In backslash jarPath -> ~ In dollar jarPath ->
  tokens (escape (Js.lit "java") ++ Js.lit " " ++ escape (Js.lit "-jar")
          ++ Js.lit " " ++ escape jarPath)
  = [Js.lit "java"; Js.lit "-jar"; jarPath].
Proof.
  intros Hbs Hdollar. unfold tokens, parse.
  rewrite scan_escaped_word by (vm_compute; intuition discriminate).
  change (scan false (Some (Js.lit "java")) []
            (Js.lit " " ++ escape (Js.lit "-jar") ++ Js.lit " " ++ escape jarPath))
    with (scan false None [Js.lit "java"]
            (escape (Js.lit "-jar") ++ Js.lit " " ++ escape jarPath)).
  rewrite scan_escaped_word by (vm_compute; intuition discriminate).
  change (scan false (Some (Js.lit "-jar")) [Js.lit "java"]
            (Js.lit " " ++ escape jarPath))
    with (scan false None [Js.lit "-jar"; Js.lit "java"] (escape jarPath)).
  rewrite <- (app_nil_r (escape jarPath)).
  rewrite scan_escaped_word by assumption.
  reflexivity.
Qed.

(** ** [ensureArray] *)

Import Api.

Lemma number_of_nat_truthy (n : nat) :
  toBoolean (Number (number_of_nat (S n))) = true.
Proof. reflexivity. Qed.

(** C10. [ensureArray] gives the empty array when its argument is falsy
    or has a falsy [length], and its argument otherwise; so it gives the
    empty array for [undefined], [null], booleans, numbers, the empty
    string, the empty array and objects without a [length], and gives a
    non-empty array or string back as it is. *)
Theorem ensureArray_spec (v : value) :
  ensureArray v
  = (if negb (toBoolean v) || negb (toBoolean (length_of v))
     then Array [] else v)
  /\ (ensureArray v = Array [] \/ ensureArray v = v)
  /\ ensureArray Undefined = Array []
  /\ ensureArray Null = Array []
  /\ (forall b, ensureArray (Boolean b) = Array [])
  /\ (forall x, ensureArray (Number x) = Array [])
  /\ ensureArray (String []) = Array []
  /\ ensureArray (Array []) = Array []
  /\ (forall props,
        lookup (Js.lit "length") props = Undefined ->
        ensureArray (Object props) = Array [])
  /\ (forall props,
        toBoolean (lookup (Js.lit "length") props) = true ->
        ensureArray (Object props) = Object props)
  /\ (forall x items, ensureArray (Array (x :: items)) = Array (x :: items))
  /\ (forall c s, ensureArray (String (c :: s)) = String (c :: s)).
Proof.
  split.
  { unfold ensureArray. destruct (toBoolean v); reflexivity. }
  split.
  { unfold ensureArray.
    destruct (toBoolean v); simpl; [|left; reflexivity].
    destruct (toBoolean (length_of v)); simpl; [right | left]; reflexivity. }
  repeat split; try reflexivity.
  - intros [|]; reflexivity.
  - intros x. unfold ensureArray.
    destruct (toBoolean (Number x)); reflexivity.
  - intros props Hnone. unfold ensureArray. simpl. rewrite Hnone. reflexivity.
  - intros props Hlen. unfold ensureArray. simpl. rewrite Hlen. reflexivity.
Qed.

(** * Further properties of the launcher *)

(** ** What the pipeline keeps *)

Lemma computeWeight_sound (H : host) (appPath : Js.str) (order : list nat)
    (execs : list candidate) (x : candidate) :
  In x (computeWeight H appPath order execs) ->
  exists exe, In exe execs
    /\ sf_stat H (path_join H [appPath; path exe]) = Some (weight x)
    /\ x = set_weight (weight x) exe.
Proof.
  unfold computeWeight. intros Hin.
  apply in_flat_map in Hin as [i [_ Hin]].
  destruct (nth_error execs i) as [exe|] eqn:Hnth; [|contradiction].
  apply nth_error_In in Hnth. unfold probe in Hin.
  destruct (sf_stat H (path_join H [appPath; path exe])) as [size|] eqn:Hstat;
    [|contradiction].
  destruct Hin as [<-|[]]. exists exe. simpl.
  repeat split; try assumption; reflexivity.
Qed.

Lemma computeScore_sound (execs : list candidate) (x : candidate) :
  In x (computeScore execs) ->
  exists exe, In exe execs /\ x = set_score (scoreOf (path exe)) exe
              /\ 0 < scoreOf (path exe).
Proof.
  induction execs as [|exe rest IH]; simpl; [contradiction|].
  destruct (Z.gtb_spec (scoreOf (path exe)) 0) as [Hpos|Hneg].
  - intros [<-|Hin].
    + exists exe. repeat split; [left; reflexivity | lia].
    + destruct (IH Hin) as [e [He Hx]]. exists e. split; [right|]; assumption.
  - intros Hin. destruct (IH Hin) as [e [He Hx]].
    exists e. split; [right|]; assumption.
Qed.

(** X1. Every candidate of the ranked list, the launched head included, is a
    declared path whose stat succeeded; its weight is the size found,
    its score the positive score of its path and its depth the depth of
    its path. *)
Theorem ranked_candidates_sound (H : host) (appPath : Js.str)
    (order : list nat) (paths : list Js.str) (x : candidate) :
  In x (rank (candidatesOf H appPath order paths)) ->
  In (path x) paths
  /\ sf_stat H (path_join H [appPath; path x]) = Some (weight x)
  /\ score x = scoreOf (path x) /\ 0 < score x
  /\ depth x = depthOf H (path x).
Proof.
  intros Hin. apply (Permutation_in _ (rank_perm _)) in Hin.
  unfold candidatesOf, computeDepth in Hin.
  apply in_map_iff in Hin as [y [<- Hy]].
  apply computeScore_sound in Hy as [z [Hz [-> Hpos]]].
  apply computeWeight_sound in Hz as [e [He [Hstat Hzeq]]].
  apply in_map_iff in He as [p [<- Hp]].
  assert (Hpath : path z = p) by (rewrite Hzeq; reflexivity).
  rewrite Hpath in Hpos.
  rewrite Hzeq. simpl in *. repeat split; try assumption; reflexivity.
Qed.

Lemma ranked_candidates_sound_witness :
  let H := sample_host [(Js.lit "/games/app/bin/game", 700);
                        (Js.lit "/games/app/libfoo.so", 900)] 0 in
  let x := Candidate (Js.lit "bin/game") 700 100 2 in
  In x (rank (candidatesOf H (Js.lit "/games/app") [2%nat; 0%nat; 1%nat]
                [Js.lit "libfoo.so"; Js.lit "gone.exe"; Js.lit "bin/game"]))
  /\ sf_stat H (path_join H [Js.lit "/games/app"; path x]) = Some 700.
Proof.
  intros H x.
  assert (Hin : In x (rank (candidatesOf H (Js.lit "/games/app")
                       [2%nat; 0%nat; 1%nat]
                       [Js.lit "libfoo.so"; Js.lit "gone.exe";
                        Js.lit "bin/game"])))
    by (vm_compute; left; reflexivity).
  split; [exact Hin|].
  exact (proj1 (proj2 (@ranked_candidates_sound H _ _ _ x Hin))).
Defined.

(** ** The priority of the three keys *)

Lemma insert_by_lex (key : candidate -> Z) (R : candidate -> candidate -> Prop)
    (x : candidate) (l : list candidate) :
  StronglySorted (lex key R) l ->
  Forall (R x) l ->
  StronglySorted (lex key R) (insert_by key x l).
Proof.
  induction l as [|y rest IH]; intros Hsorted Hafter; simpl.
  - constructor; constructor.
  - apply StronglySorted_inv in Hsorted as [Hrest Hy].
    destruct (Z.leb_spec (key x) (key y)) as [Hle|Hgt].
    + constructor; [constructor; assumption|].
      rewrite Forall_forall in *. intros z Hz.
      assert (Hxz := Hafter z Hz).
      assert (Hyz : key y <= key z).
      { destruct Hz as [<-|Hz]; [lia|].
        destruct (Hy z Hz) as [Hlt|[Heq _]]; lia. }
      unfold lex. destruct (Z.eq_dec (key x) (key z)); [right | left];
        [split; assumption | lia].
    + constructor.
      * apply IH; [exact Hrest|]. apply Forall_inv_tail in Hafter. exact Hafter.
      * rewrite Forall_forall in *. intros z Hz.
        apply (Permutation_in _ (insert_by_perm key x rest)) in Hz.
        destruct Hz as [<-|Hz]; [left; lia | apply Hy, Hz].
Qed.

(** A stable sort of a list arranged by [R] arranges it by the key first
    and by [R] within a key. *)
Lemma sortBy_lex (key : candidate -> Z) (R : candidate -> candidate -> Prop)
    (l : list candidate) :
  StronglySorted R l -> StronglySorted (lex key R) (sortBy key l).
Proof.
  induction l as [|x rest IH]; intros Hsorted; simpl.
  - constructor.
  - apply StronglySorted_inv in Hsorted as [Hrest Hx].
    apply insert_by_lex; [apply IH, Hrest|].
    rewrite Forall_forall in *. intros z Hz. apply Hx.
    apply (Permutation_in _ (sortBy_perm key rest)), Hz.
Qed.

Lemma strongly_sorted_any (l : list candidate) :
  StronglySorted (fun _ _ => True) l.
Proof.
  induction l as [|x rest IH]; constructor; [exact IH|].
  apply Forall_forall. intros; exact I.
Qed.

Lemma strongly_sorted_weaken (R S : candidate -> candidate -> Prop)
    (l : list candidate) :
  (forall x y, R x y -> S x y) ->
  StronglySorted R l -> StronglySorted S l.
Proof.
  intros Himp Hsorted.
  induction Hsorted as [|x rest Hrest IH Hx]; constructor; [exact IH|].
  eapply Forall_impl; [|exact Hx]. intros y. apply Himp.
Qed.

Lemma rank_by_keys (l : list candidate) : StronglySorted by_keys (rank l).
Proof.
  unfold rank, by_keys.
  apply sortBy_lex, sortBy_lex, sortBy_lex, strongly_sorted_any.
Qed.

Lemma by_keys_outranks (x y : candidate) : by_keys x y -> outranks x y.
Proof.
  unfold by_keys, lex, outranks. simpl. intros Hlex.
  destruct Hlex as [Hd|[Hd [Hs|[Hs [Hw|[Hw _]]]]]].
  - left. exact Hd.
  - right. split; [exact Hd|]. left. lia.
  - right. split; [exact Hd|]. right. split; lia.
  - right. split; [exact Hd|]. right. split; lia.
Qed.

Lemma rank_sorted (l : list candidate) : StronglySorted outranks (rank l).
Proof.
  apply (@strongly_sorted_weaken by_keys outranks _ by_keys_outranks).
  apply rank_by_keys.
Qed.

(** X3. The ranked list is ordered by depth first, shallowest first;
    among candidates of one depth by score, highest first; among
    candidates of one depth and score by weight, heaviest first. *)
Theorem rank_priority (l : list candidate) :
  StronglySorted outranks (rank l).
Proof.
  assert (Hkeys := rank_by_keys l).
  induction Hkeys as [|x rest _ IH Hx]; constructor; [exact IH|].
  rewrite Forall_forall in *. intros y Hy.
  apply by_keys_outranks, Hx, Hy.
Qed.

(** X4. The candidate that [launch] picks, the head of the ranked list, may
    stand in front of every other candidate: none is shallower, none as
    deep has a higher score, none as deep and as well scored is heavier. *)
Theorem launched_head_is_best (l : list candidate) (first : candidate)
    (others : list candidate) (y : candidate) :
  rank l = first :: others ->
  In y l ->
  depth first <= depth y
  /\ (depth first = depth y -> score y <= score first)
  /\ (depth first = depth y -> score first = score y ->
      weight y <= weight first).
Proof.
  intros Hrank Hy.
  assert (Hsorted := rank_sorted l). rewrite Hrank in Hsorted.
  apply StronglySorted_inv in Hsorted as [_ Hfirst].
  apply (Permutation_in _ (Permutation_sym (rank_perm l))) in Hy.
  rewrite Hrank in Hy. destruct Hy as [<-|Hy].
  - repeat split; intros; lia.
  - rewrite Forall_forall in Hfirst. specialize (Hfirst y Hy).
    unfold outranks in Hfirst. repeat split; intros; lia.
Qed.

Lemma launched_head_is_best_witness :
  let big := Candidate (Js.lit "data/big.exe") 9000 100 2 in
  let small := Candidate (Js.lit "small.exe") 10 100 1 in
  rank [big; small] = [small; big] /\ depth small <= depth big.
Proof.
  intros big small.
  assert (Hrank : rank [big; small] = small :: [big]) by reflexivity.
  split; [exact Hrank|].
  exact (proj1 (@launched_head_is_best [big; small] small [big] big Hrank
                  (or_introl eq_refl))).
Defined.

(** ** The completion order of the probes *)

Lemma computeScore_perm (l l' : list candidate) :
  Permutation l l' -> Permutation (computeScore l) (computeScore l').
Proof.
  intros Hperm. induction Hperm as [|x l l' _ IH|x y l|l l' l'' _ IH1 _ IH2].
  - apply perm_nil.
  - simpl. destruct (scoreOf (path x) >? 0); [apply perm_skip|]; exact IH.
  - simpl. destruct (scoreOf (path x) >? 0), (scoreOf (path y) >? 0);
      try apply Permutation_refl. apply perm_swap.
  - eapply perm_trans; eassumption.
Qed.

Lemma candidatesOf_perm (H : host) (appPath : Js.str) (order order' : list nat)
    (paths : list Js.str) :
  Permutation order order' ->
  Permutation (candidatesOf H appPath order paths)
              (candidatesOf H appPath order' paths).
Proof.
  intros Hperm. unfold candidatesOf, computeDepth, computeWeight.
  apply Permutation_map, computeScore_perm, Permutation_flat_map, Hperm.
Qed.

Lemma computeScore_complete (l : list candidate) (exe : candidate) :
  In exe l -> 0 < scoreOf (path exe) ->
  In (set_score (scoreOf (path exe)) exe) (computeScore l).
Proof.
  intros Hin Hpos. induction l as [|x rest IH]; simpl; [contradiction|].
  destruct Hin as [->|Hin].
  - apply Z.gtb_lt in Hpos. rewrite Hpos. left. reflexivity.
  - destruct (scoreOf (path x) >? 0); [right|]; apply IH, Hin.
Qed.

(** X2. When every probe completes, in whatever order, no declared path is
    lost: a declared path whose stat succeeds and whose score is positive
    is in the ranked list, with the size found as its weight. *)
Theorem ranked_candidates_complete (H : host) (appPath : Js.str)
    (order : list nat) (paths : list Js.str) (p : Js.str) (size : Z) :
  Permutation order (seq 0 (List.length paths)) ->
  In p paths ->
  sf_stat H (path_join H [appPath; p]) = Some size ->
  0 < scoreOf p ->
  In (Candidate p size (scoreOf p) (depthOf H p))
     (rank (candidatesOf H appPath order paths)).
Proof.
  intros Hperm Hp Hstat Hpos.
  apply (Permutation_in _ (Permutation_sym (rank_perm _))).
  apply (Permutation_in _
           (Permutation_sym (candidatesOf_perm H appPath paths Hperm))).
  unfold candidatesOf.
  replace (List.length paths)
    with (List.length (map (fun p => Candidate p 0 0 0) paths))
    by apply length_map.
  rewrite computeWeight_in_order. unfold computeDepth.
  apply in_map_iff.
  exists (set_score (scoreOf p) (Candidate p size 0 0)).
  split; [reflexivity|].
  apply (@computeScore_complete _ (Candidate p size 0 0)); [|exact Hpos].
  apply in_flat_map. exists (Candidate p 0 0 0). split.
  - apply in_map_iff. exists p. split; [reflexivity | exact Hp].
  - unfold probe. simpl. rewrite Hstat. left. reflexivity.
Qed.

Lemma ranked_candidates_complete_witness :
  let H := sample_host [(Js.lit "/games/app/bin/game", 700);
                        (Js.lit "/games/app/libfoo.so", 900)] 0 in
  In (Candidate (Js.lit "bin/game") 700 100 2)
     (rank (candidatesOf H (Js.lit "/games/app") [2%nat; 0%nat; 1%nat]
              [Js.lit "libfoo.so"; Js.lit "gone.exe"; Js.lit "bin/game"])).
Proof.
  intros H.
  refine (@ranked_candidates_complete H (Js.lit "/games/app")
            [2%nat; 0%nat; 1%nat] _ (Js.lit "bin/game") 700 _ _ _ _).
  - apply Permutation_sym.
    apply (@perm_trans _ _ [0%nat; 2%nat; 1%nat]);
      [apply perm_skip, perm_swap | apply perm_swap].
  - right. right. left. reflexivity.
  - reflexivity.
  - vm_compute. reflexivity.
Defined.

(** Two arrangements of the same elements by an order that relates no
    two different elements both ways are the same list. *)
Lemma sorted_perm_unique (R : candidate -> candidate -> Prop)
    (l1 l2 : list candidate) :
  StronglySorted R l1 -> StronglySorted R l2 -> Permutation l1 l2 ->
  (forall x y, In x l1 -> In y l1 -> R x y -> R y x -> x = y) ->
  l1 = l2.
Proof.
  revert l2. induction l1 as [|a t1 IH]; intros l2 Hs1 Hs2 Hperm Hanti.
  - apply Permutation_nil in Hperm. symmetry. exact Hperm.
  - destruct l2 as [|b t2].
    + apply Permutation_sym, Permutation_nil in Hperm. discriminate.
    + apply StronglySorted_inv in Hs1 as [Ht1 Ha].
      apply StronglySorted_inv in Hs2 as [Ht2 Hb].
      rewrite Forall_forall in Ha, Hb.
      assert (Hab : a = b).
      { assert (Hb_in : In b (a :: t1))
          by (apply (Permutation_in _ (Permutation_sym Hperm)); left;
              reflexivity).
        assert (Ha_in : In a (b :: t2))
          by (apply (Permutation_in _ Hperm); left; reflexivity).
        destruct Hb_in as [Heq|Hb_in]; [exact Heq|].
        destruct Ha_in as [Heq|Ha_in]; [symmetry; exact Heq|].
        apply Hanti; [left; reflexivity | right; exact Hb_in
                     | apply Ha, Hb_in | apply Hb, Ha_in]. }
      subst b. f_equal.
      apply IH; [exact Ht1 | exact Ht2
                | apply Permutation_cons_inv in Hperm; exact Hperm |].
      intros x y Hx Hy. apply Hanti; right; assumption.
Qed.

(** X5. When no two kept candidates agree on weight, score and depth at
    once, the ranked list, and with it the executable that is launched,
    is the same for every order in which the probes complete. *)
Theorem rank_order_independent (H : host) (appPath : Js.str)
    (order order' : list nat) (paths : list Js.str) :
  Permutation order order' ->
  (forall x y,
      In x (candidatesOf H appPath order paths) ->
      In y (candidatesOf H appPath order paths) ->
      weight x = weight y -> score x = score y -> depth x = depth y ->
      x = y) ->
  rank (candidatesOf H appPath order paths)
  = rank (candidatesOf H appPath order' paths).
Proof.
  intros Hperm Hties.
  apply (@sorted_perm_unique outranks); try apply rank_sorted.
  - eapply perm_trans; [apply rank_perm|].
    eapply perm_trans; [apply candidatesOf_perm, Hperm|].
    apply Permutation_sym, rank_perm.
  - intros x y Hx Hy Hxy Hyx.
    apply (Permutation_in _ (rank_perm _)) in Hx, Hy.
    apply Hties; try assumption; unfold outranks in Hxy, Hyx; lia.
Qed.

Lemma rank_order_independent_witness :
  let H := sample_host [(Js.lit "/games/app/game.exe", 500);
                        (Js.lit "/games/app/unins000.exe", 600)] 0 in
  let paths := [Js.lit "game.exe"; Js.lit "unins000.exe"] in
  rank (candidatesOf H (Js.lit "/games/app") [0%nat; 1%nat] paths)
  = rank (candidatesOf H (Js.lit "/games/app") [1%nat; 0%nat] paths).
Proof.
  intros H paths.
  apply rank_order_independent; [apply perm_swap|].
  intros x y Hx Hy.
  assert (Hc : candidatesOf H (Js.lit "/games/app") [0%nat; 1%nat] paths
               = [Candidate (Js.lit "game.exe") 500 100 1;
                  Candidate (Js.lit "unins000.exe") 600 50 1])
    by (vm_compute; reflexivity).
  rewrite Hc in Hx, Hy.
  destruct Hx as [<-|[<-|[]]], Hy as [<-|[<-|[]]]; simpl;
    intros Hw Hs Hd; try reflexivity; discriminate.
Defined.

(** ** Depth *)

Lemma split_length (sep : N) (s : Js.str) :
  List.length (Js.split sep s) = S (count_occ N.eq_dec s sep).
Proof.
  induction s as [|c rest IH]; [reflexivity|].
  simpl. destruct (N.eqb_spec c sep) as [->|Hne].
  - simpl. rewrite IH. destruct (N.eq_dec sep sep); [reflexivity | contradiction].
  - destruct (N.eq_dec c sep); [contradiction|].
    destruct (Js.split sep rest); simpl in *; [discriminate | exact IH].
Qed.

(** X6. The depth of a path is one more than the number of separators in its
    normal form, so at least 1; the depth stage drops no candidate and
    changes neither the order nor the path, weight or score of any. *)
Theorem depth_counts_separators (H : host) (p : Js.str) (l : list candidate) :
  depthOf H p
  = 1 + Z.of_nat (count_occ N.eq_dec (path_normalize H p) (path_sep H))
  /\ 1 <= depthOf H p
  /\ map path (computeDepth H l) = map path l
  /\ map weight (computeDepth H l) = map weight l
  /\ map score (computeDepth H l) = map score l
  /\ map depth (computeDepth H l) = map (fun x => depthOf H (path x)) l.
Proof.
  assert (Hdepth : depthOf H p
            = 1 + Z.of_nat (count_occ N.eq_dec (path_normalize H p)
                              (path_sep H))).
  { unfold depthOf. rewrite split_length. lia. }
  split; [exact Hdepth|]. split; [lia|].
  unfold computeDepth. rewrite !map_map. repeat split; reflexivity.
Qed.

(** ** Which candidates are kept *)

(** X7. A candidate is kept exactly in these cases. When its path matches
    the shell-script pattern: it matches a force-to-zero pattern, or it
    does not match all of the three penalties. When it does not: it
    matches no force-to-zero pattern and not both the uninstaller and
    the kick.bin penalties. *)
Theorem kept_condition (p : Js.str) :
  let forced :=
    Regex.test re_dxwebsetup p || Regex.test re_vcredist p
    || Regex.test re_shared p in
  (scoreOf p >? 0)
  = if Regex.test re_sh p
    then forced || negb (Regex.test re_unins p && Regex.test re_kick p
                         && Regex.test re_nwjc p)
    else negb forced && negb (Regex.test re_unins p && Regex.test re_kick p).
Proof.
  unfold scoreOf.
  destruct (Regex.test re_unins p), (Regex.test re_kick p),
    (Regex.test re_nwjc p), (Regex.test re_dxwebsetup p),
    (Regex.test re_vcredist p), (Regex.test re_shared p),
    (Regex.test re_sh p); reflexivity.
Qed.

(** X8. Scoring again changes nothing: the scorer's output is kept whole,
    with the same scores, by a second pass. *)
Theorem computeScore_idempotent (execs : list candidate) :
  computeScore (computeScore execs) = computeScore execs.
Proof.
  induction execs as [|exe rest IH]; [reflexivity|].
  simpl. destruct (scoreOf (path exe) >? 0) eqn:Hpos; [|exact IH].
  simpl. rewrite Hpos, IH. reflexivity.
Qed.

(** The scorer leaves the order, the paths, the weights and the depths
    of the candidates it keeps as they were. *)
Lemma computeScore_filter (execs : list candidate) :
  computeScore execs
  = map (fun x => set_score (scoreOf (path x)) x)
        (filter (fun x => scoreOf (path x) >? 0) execs).
Proof.
  induction execs as [|exe rest IH]; [reflexivity|].
  simpl. destruct (scoreOf (path exe) >? 0); simpl; rewrite IH; reflexivity.
Qed.

(** ** Paths without a dot *)

Lemma must_contain_sound (c : N) (r : Regex.regex) (w : Js.str) :
  Regex.must_contain c r -> Regex.matches r w -> In c w.
Proof.
  intros Hmust Hm.
  induction Hm as [|q d Hd|r s u v _ IHu _ IHv|r s u _ IH|r s u _ IH
                  |r|r u v _ _ _ _]; simpl in Hmust; try contradiction.
  - apply Hmust in Hd. left. exact Hd.
  - apply in_or_app. destruct Hmust as [Hr|Hs]; [left; apply IHu | right; apply IHv];
      assumption.
  - apply IH. tauto.
  - apply IH. tauto.
Qed.

Lemma chr_dot (x : N) : N.eqb 46 x = true -> x = 46%N.
Proof. intros Hx. apply N.eqb_eq in Hx. symmetry. exact Hx. Qed.

Lemma chr_i_dot (x : N) :
  N.eqb (Js.upper_unit x) (Js.upper_unit 46) = true -> x = 46%N.
Proof.
  intros Hx. apply N.eqb_eq in Hx. change (Js.upper_unit 46) with 46%N in Hx.
  unfold Js.upper_unit in Hx.
  destruct (N.leb_spec 97 x), (N.leb_spec x 122); simpl in Hx; lia.
Qed.

Ltac find_dot :=
  simpl;
  repeat first [ left; solve [exact chr_dot | exact chr_i_dot] | right ].

Lemma test_needs_dot (pat : Regex.pattern) (p : Js.str) :
  Regex.must_contain 46 (Regex.body pat) ->
  ~ In 46%N p -> Regex.test pat p = false.
Proof.
  intros Hmust Hnodot. destruct (Regex.test pat p) eqn:Htest; [|reflexivity].
  apply test_spec in Htest as [pre [mid [post [-> [Hmid _]]]]].
  exfalso. apply Hnodot. apply in_or_app. right. apply in_or_app. left.
  eapply must_contain_sound; eassumption.
Qed.

(** X9. A path without a dot matches none of the patterns: it has the score
    100 and the scorer keeps it. *)
Theorem dotless_path_scores_100 (p : Js.str) (w : Z) :
  ~ In 46%N p ->
  scoreOf p = 100
  /\ computeScore [Candidate p w 0 0] = [Candidate p w 100 0].
Proof.
  intros Hnodot.
  assert (Hscore : scoreOf p = 100).
  { unfold scoreOf.
    rewrite (@test_needs_dot re_unins p) by (try find_dot; assumption).
    rewrite (@test_needs_dot re_kick p) by (try find_dot; assumption).
    rewrite (@test_needs_dot re_nwjc p) by (try find_dot; assumption).
    rewrite (@test_needs_dot re_dxwebsetup p) by (try find_dot; assumption).
    rewrite (@test_needs_dot re_vcredist p) by (try find_dot; assumption).
    rewrite (@test_needs_dot re_shared p) by (try find_dot; assumption).
    rewrite (@test_needs_dot re_sh p) by (try find_dot; assumption).
    reflexivity. }
  split; [exact Hscore|]. simpl. rewrite Hscore. reflexivity.
Qed.

Lemma dotless_path_scores_100_witness :
  scoreOf (Js.lit "bin/Game-x86_64") = 100.
Proof.
  refine (proj1 (@dotless_path_scores_100 (Js.lit "bin/Game-x86_64") 0 _)).
  vm_compute. intuition discriminate.
Defined.

(** ** The patterns for Java archives and application bundles *)

(** A text under the [i] flag has as its words the texts equal to it up
    to the case of the letters A-Z. *)
Lemma matches_text_i (s w : Js.str) :
  s <> [] ->
  (Regex.matches (Regex.seq_of Regex.chr_i s) w
   <-> map Js.upper_unit w = map Js.upper_unit s).
Proof.
  revert w. induction s as [|c s IH]; intros w Hne; [contradiction|].
  assert (Hchr : forall u, Regex.matches (Regex.chr_i c) u
                           <-> map Js.upper_unit u = [Js.upper_unit c]).
  { intros u. unfold Regex.chr_i. split.
    - intros Hm. inversion Hm as [|p d Hd| | | | |]; subst.
      apply N.eqb_eq in Hd. simpl. rewrite Hd. reflexivity.
    - intros Hu. destruct u as [|d [|e u]]; try discriminate.
      injection Hu as Hd. constructor. apply N.eqb_eq. exact Hd. }
  destruct s as [|c' s'].
  - simpl. apply Hchr.
  - change (Regex.seq_of Regex.chr_i (c :: c' :: s'))
      with (Regex.Cat (Regex.chr_i c) (Regex.seq_of Regex.chr_i (c' :: s'))).
    split.
    + intros Hm. apply cat_inv in Hm as [u [v [-> [Hu Hv]]]].
      apply Hchr in Hu. apply IH in Hv; [|discriminate].
      rewrite map_app, Hu, Hv. reflexivity.
    + intros Hw. destruct w as [|d w']; [discriminate|].
      simpl in Hw. injection Hw as Hd Hw'.
      apply (@Regex.MCat _ _ [d] w').
      * apply Hchr. simpl. rewrite Hd. reflexivity.
      * apply IH; [discriminate | exact Hw'].
Qed.

(** X11. The test for a Java archive holds exactly of the paths that end in
    .jar, in any mix of upper and lower case. *)
Theorem jar_test_spec (p : Js.str) :
  Regex.test re_jar p = true
  <-> exists stem ext,
        p = stem ++ ext /\ map Js.upper_unit ext = Js.lit ".JAR".
Proof.
  rewrite test_spec. split.
  - intros [pre [mid [post [-> [Hmid [_ Hend]]]]]].
    rewrite (Hend eq_refl), app_nil_r.
    apply matches_text_i in Hmid; [|discriminate].
    exists pre, mid. split; [reflexivity | exact Hmid].
  - intros [stem [ext [-> Hext]]]. exists stem, ext, [].
    rewrite app_nil_r. repeat split; try discriminate.
    apply matches_text_i; [discriminate | exact Hext].
Qed.

(** X12. [isAppBundle] holds exactly of the paths that end in .app or in
    .app/, in any mix of upper and lower case. *)
Theorem isAppBundle_spec (p : Js.str) :
  isAppBundle p = true
  <-> exists stem ext,
        p = stem ++ ext
        /\ (map Js.lower_unit ext = Js.lit ".app"
            \/ map Js.lower_unit ext = Js.lit ".app/").
Proof.
  unfold isAppBundle. rewrite test_spec. split.
  - intros [pre [mid [post [Heq [Hmid [_ Hend]]]]]].
    rewrite (Hend eq_refl), app_nil_r in Heq.
    apply map_eq_app in Heq as [stem [ext [-> [_ Hext]]]].
    exists stem, ext. split; [reflexivity|]. rewrite Hext.
    simpl in Hmid. apply cat_inv in Hmid as [u [v [-> [Hu Hv]]]].
    apply matches_text in Hu; [|discriminate]. subst u.
    apply alt_inv in Hv as [Hv|Hv].
    + apply matches_text in Hv; [|discriminate]. subst v. right. reflexivity.
    + inversion Hv; subst. left. reflexivity.
  - intros [stem [ext [-> Hext]]].
    exists (map Js.lower_unit stem), (map Js.lower_unit ext), [].
    rewrite app_nil_r, map_app. repeat split; try discriminate.
    simpl. destruct Hext as [-> | ->].
    + apply (@Regex.MCat _ _ (Js.lit ".app") []).
      * apply matches_text; [discriminate | reflexivity].
      * apply Regex.MAltR. constructor.
    + apply (@Regex.MCat _ _ (Js.lit ".app") (Js.lit "/")).
      * apply matches_text; [discriminate | reflexivity].
      * apply Regex.MAltL. apply matches_text; [discriminate | reflexivity].
Qed.

(** ** Quoted words *)

Lemma escape_body_no_leading_quote (arg rest : Js.str) :
  escape_body arg <> 34%N :: rest.
Proof.
  destruct arg as [|c arg]; [discriminate|].
  rewrite escape_body_cons. destruct (N.eqb_spec c ShellQuote.dquote) as [->|Hne].
  - discriminate.
  - simpl. intros Heq. injection Heq as Hc _. contradiction.
Qed.

Lemma escape_body_injective (a b : Js.str) :
  escape_body a = escape_body b -> a = b.
Proof.
  revert b. induction a as [|c a IH]; intros b Heq.
  - destruct b as [|d b]; [reflexivity|].
    rewrite escape_body_cons in Heq.
    destruct (N.eqb d ShellQuote.dquote); discriminate.
  - destruct b as [|d b].
    + rewrite escape_body_cons in Heq.
      destruct (N.eqb c ShellQuote.dquote); discriminate.
    + rewrite !escape_body_cons in Heq.
      destruct (N.eqb_spec c ShellQuote.dquote) as [->|Hc],
               (N.eqb_spec d ShellQuote.dquote) as [->|Hd]; simpl in Heq.
      * injection Heq as Heq. f_equal. apply IH, Heq.
      * injection Heq as _ Heq. symmetry in Heq.
        apply escape_body_no_leading_quote in Heq. contradiction.
      * injection Heq as _ Heq.
        apply escape_body_no_leading_quote in Heq. contradiction.
      * injection Heq as -> Heq. f_equal. apply IH, Heq.
Qed.

(** X13. Quoting loses nothing: two arguments have the same quoted form only
    when they are the same argument; the quoted form is two code units
    longer than the argument, plus one for each of its double quotes. *)
Theorem escape_injective (a b : Js.str) :
  (escape a = escape b <-> a = b)
  /\ List.length (escape a)
     = (List.length a + count_occ N.eq_dec a 34%N + 2)%nat.
Proof.
  split.
  - split; [|intros ->; reflexivity].
    unfold escape. intros Heq.
    apply app_inv_head, app_inv_tail in Heq.
    apply escape_body_injective, Heq.
  - unfold escape. rewrite !length_app. simpl.
    assert (Hbody : List.length (escape_body a)
                    = (List.length a + count_occ N.eq_dec a 34%N)%nat).
    { induction a as [|c a IH]; [reflexivity|].
      rewrite escape_body_cons, length_app, IH.
      destruct (N.eqb_spec c ShellQuote.dquote) as [->|Hne]; simpl.
      - destruct (N.eq_dec ShellQuote.dquote 34); [lia | contradiction].
      - destruct (N.eq_dec c 34); [contradiction | lia]. }
    rewrite Hbody. lia.
Qed.

(** ** The command line of a plain launch *)

Lemma join_escape_nonempty (a : Js.str) (rest : list Js.str) :
  (0 <? List.length (Js.join (Js.lit " ") (map escape (a :: rest))))%nat = true.
Proof.
  simpl. destruct (map escape rest); reflexivity.
Qed.

Lemma launchExecutable_plain (H : host) (exePath : Js.str)
    (args : list Js.str) (opts : options) :
  Js.eqb (os_platform H) (Js.lit "darwin") && isAppBundle exePath = false ->
  launchExecutable H exePath args opts
  = sh H exePath (Js.join (Js.lit " ") (map escape (exePath :: args))).
Proof.
  intros Hplain. unfold launchExecutable. rewrite Hplain.
  destruct args as [|a rest]; [reflexivity|].
  rewrite join_escape_nonempty. reflexivity.
Qed.

(** X14. Off macOS, and on macOS for a path that is no application
    bundle, the launch is the [sh] step for the executable, with the
    command line made of the quoted path and the quoted arguments joined
    by single spaces; neither the isolation preference nor the cave plays
    a part. *)
Theorem plain_launch (H : host) (exePath : Js.str) (args : list Js.str)
    (opts : options) :
  Js.eqb (os_platform H) (Js.lit "darwin") && isAppBundle exePath = false ->
  launchExecutable H exePath args opts
  = sh H exePath (Js.join (Js.lit " ") (map escape (exePath :: args))).
Proof.
  intros Hplain. unfold launchExecutable. rewrite Hplain.
  destruct args as [|a rest]; [reflexivity|].
  simpl map. simpl Js.join.
  destruct (map escape rest); reflexivity.
Qed.

Lemma plain_launch_witness :
  let H := sample_host [] 0 in
  launchExecutable H (Js.lit "/games/app/Game.app")
                   [Js.lit "--fullscreen"] (Options None true)
  = sh H (Js.lit "/games/app/Game.app")
       (Js.join (Js.lit " ")
          (map escape [Js.lit "/games/app/Game.app"; Js.lit "--fullscreen"])).
Proof.
  intros H. apply plain_launch. reflexivity.
Defined.

(** X15. For a chosen path that is no Java archive, with a host as above, the
    whole of [launch] is the [sh] step for that path with the quoted path
    alone as the command line. *)
Theorem launch_plain_head (H : host) (order : list nat) (opts : options)
    (c : cave) (first : candidate) (others : list candidate) :
  let appPath := pathmaker_appPath H c in
  let exePath := path_join H [appPath; path first] in
  opt_cave opts = Some c ->
  rank (candidatesOf H appPath order (executables c)) = first :: others ->
  Regex.test re_jar exePath = false ->
  Js.eqb (os_platform H) (Js.lit "darwin") && isAppBundle exePath = false ->
  launch H order opts = sh H exePath (escape exePath).
Proof.
  intros appPath exePath Hcave Hrank Hjar Hplain.
  unfold launch. rewrite Hcave. fold appPath. rewrite Hrank.
  fold exePath. rewrite Hjar. rewrite launchExecutable_plain by exact Hplain.
  reflexivity.
Qed.

Lemma launch_plain_head_witness :
  let H := sample_host [(Js.lit "/games/app/game.exe", 500);
                        (Js.lit "/games/app/unins000.exe", 600)] 0 in
  let opts :=
    Options (Some (Cave [Js.lit "game.exe"; Js.lit "unins000.exe"])) false in
  launch H [1%nat; 0%nat] opts
  = sh H (Js.lit "/games/app/game.exe") (escape (Js.lit "/games/app/game.exe")).
Proof.
  intros H opts.
  refine (@launch_plain_head H [1%nat; 0%nat] opts
            (Cave [Js.lit "game.exe"; Js.lit "unins000.exe"])
            (Candidate (Js.lit "game.exe") 500 100 1)
            [Candidate (Js.lit "unins000.exe") 600 50 1] eq_refl _ _ _).
  - vm_compute. reflexivity.
  - vm_compute. reflexivity.
  - reflexivity.
Defined.

(** ** Command lines under the model tokenizer *)

Lemma scan_quoted_words (words : list Js.str) (done : list Js.str) :
  Forall (fun w => ~ In ShellQuote.backslash w /\ ~ In ShellQuote.dollar w)
         words ->
  scan false None done (Js.join (Js.lit " ") (map escape words))
  = Tokens (rev done ++ words).
Proof.
  revert done. induction words as [|w rest IH]; intros done Hclean.
  - simpl. rewrite app_nil_r. reflexivity.
  - apply Forall_cons_iff in Hclean as [[Hbs Hdollar] Hrest].
    destruct rest as [|w' rest'].
    + simpl map. simpl Js.join.
      rewrite <- (app_nil_r (escape w)).
      rewrite scan_escaped_word by assumption. reflexivity.
    + change (Js.join (Js.lit " ") (map escape (w :: w' :: rest')))
        with (escape w ++ Js.lit " "
              ++ Js.join (Js.lit " ") (map escape (w' :: rest'))).
      rewrite scan_escaped_word by assumption.
      change (scan false (Some w) done
                (Js.lit " " ++ Js.join (Js.lit " ") (map escape (w' :: rest'))))
        with (scan false None (w :: done)
                (Js.join (Js.lit " ") (map escape (w' :: rest')))).
      rewrite IH by exact Hrest. simpl. rewrite <- app_assoc. reflexivity.
Qed.

(** X16. Under the model of the tokenizer, a command line built as
    [launchExecutable] builds it, from words that hold no backslash and
    no dollar sign, is read back as exactly these words; so a plain
    launch spawns the executable with the arguments it was given. *)
Theorem command_line_tokens (words : list Js.str) :
  Forall (fun w => ~ In ShellQuote.backslash w /\ ~ In ShellQuote.dollar w)
         words ->
  parse (Js.join (Js.lit " ") (map escape words)) = Tokens words.
Proof.
  intros Hclean. unfold parse. apply (scan_quoted_words [] Hclean).
Qed.

Lemma command_line_tokens_witness :
  let words := [Js.lit "/games/my app/game"; Js.lit "--name";
                Js.lit "say " ++ [34%N] ++ Js.lit "hi" ++ [34%N]] in
  parse (Js.join (Js.lit " ") (map escape words)) = Tokens words.
Proof.
  intros words. apply command_line_tokens.
  repeat constructor; vm_compute; intuition discriminate.
Defined.

(** ** Application bundles *)

(** X17. On macOS an application bundle whose metadata cannot be resolved is
    not launched: when plutil exits with a code other than zero the
    launch fails with "plutil failed with code" and the code, whatever
    plutil printed; when it exits with zero and its output cannot be
    parsed the launch fails with "invalid app bundle", the path and
    ": couldn't parse metadata". *)
Theorem bundle_metadata_errors (H : host) (exePath : Js.str)
    (args : list Js.str) (opts : options) :
  let plist :=
    path_join H [exePath; Js.lit "Contents"; Js.lit "Info.pList"] in
  let r := spawn H (SpawnRequest (Some (Js.lit "plutil"))
                      [Js.lit "-convert"; Js.lit "json"; Js.lit "-o";
                       Js.lit "-"; plist] None) in
  let out := List.concat (map (fun tok => tok ++ [10%N]) (out_tokens r)) in
  os_platform H = Js.lit "darwin" ->
  isAppBundle exePath = true ->
  (code r <> 0 ->
   launchExecutable H exePath args opts
   = inl (Error (Js.lit "plutil failed with code " ++ Js.of_Z (code r)) None))
  /\ (code r = 0 -> plist_executable H out = ParseFails ->
      launchExecutable H exePath args opts
      = inl (Error (Js.lit "invalid app bundle " ++ exePath
                    ++ Js.lit ": couldn't parse metadata") None)).
Proof.
  intros plist r out Hdarwin Hbundle.
  unfold launchExecutable, getFullExec. rewrite Hdarwin, Hbundle.
  fold plist. fold r. fold out. simpl.
  split.
  - intros Hcode. apply Z.eqb_neq in Hcode. rewrite Hcode. reflexivity.
  - intros Hcode Hparse. apply Z.eqb_eq in Hcode. rewrite Hcode. simpl.
    rewrite Hparse. reflexivity.
Qed.

(** X18. On macOS, for an application bundle whose metadata names the
    executable, the command line starts with the quoted path
    <bundle>/Contents/MacOS/<executable>. Without isolation the [sh]
    step is given the path of the bundle, so the child runs in the
    directory of the bundle. With isolation, once the profile is written,
    the [sh] step is given the resolved path and the command line is
    "sandbox-exec -f", the quoted profile path, the command, and then a
    closing brace; when the profile cannot be written nothing is run. *)
Theorem bundle_launch (H : host) (exePath exec : Js.str)
    (args : list Js.str) (opts : options) :
  let plist :=
    path_join H [exePath; Js.lit "Contents"; Js.lit "Info.pList"] in
  let r := spawn H (SpawnRequest (Some (Js.lit "plutil"))
                      [Js.lit "-convert"; Js.lit "json"; Js.lit "-o";
                       Js.lit "-"; plist] None) in
  let out := List.concat (map (fun tok => tok ++ [10%N]) (out_tokens r)) in
  let fullExec :=
    path_join H [exePath; Js.lit "Contents"; Js.lit "MacOS"; exec] in
  let cmd :=
    escape fullExec ++ Js.lit " " ++ Js.join (Js.lit " ") (map escape args) in
  os_platform H = Js.lit "darwin" ->
  isAppBundle exePath = true ->
  code r = 0 ->
  plist_executable H out = Found exec ->
  (isolateApps opts = false ->
   launchExecutable H exePath args opts = sh H exePath cmd)
  /\ (forall c,
        isolateApps opts = true -> opt_cave opts = Some c ->
        let profile :=
          path_join H [pathmaker_appPath H c; Js.lit ".itch";
                       Js.lit "isolate-app.sb"] in
        (sf_writeFile H profile (sandbox_source H (pathmaker_appPath H c))
         = true ->
         launchExecutable H exePath args opts
         = sh H fullExec (Js.lit "sandbox-exec -f " ++ escape profile
                          ++ Js.lit " " ++ cmd ++ Js.lit "}"))
        /\ (sf_writeFile H profile (sandbox_source H (pathmaker_appPath H c))
            = false ->
            launchExecutable H exePath args opts = inl HostException)).
Proof.
  intros plist r out fullExec cmd Hdarwin Hbundle Hcode Hfound.
  unfold launchExecutable, getFullExec. rewrite Hdarwin, Hbundle.
  fold plist. fold r. fold out. apply Z.eqb_eq in Hcode. rewrite Hcode.
  simpl. rewrite Hfound. fold fullExec. fold cmd.
  split.
  - intros ->. reflexivity.
  - intros c -> ->. split; intros ->; reflexivity.
Qed.

(** A macOS host whose plutil prints one line and whose metadata names
    the executable Game. *)
Lemma bundle_launch_witness :
  let H := Host (Js.lit "darwin") (Js.join (Js.lit "/"))
             (fun _ => Js.lit "/Applications") (fun p => p) 47
             (fun _ => None) (fun _ _ => true)
             (fun _ => SpawnResult 0 [Js.lit "{}"] [])
             ShellQuote.tokens (fun _ => Found (Js.lit "Game"))
             (fun p => p) (fun _ => Js.lit "/games/app") in
  launchExecutable H (Js.lit "/Applications/Game.app") [] (Options None false)
  = sh H (Js.lit "/Applications/Game.app")
       (escape (Js.lit "/Applications/Game.app/Contents/MacOS/Game")
        ++ Js.lit " ").
Proof.
  intros H.
  refine (proj1 (@bundle_launch H (Js.lit "/Applications/Game.app")
                   (Js.lit "Game") [] (Options None false)
                   eq_refl _ eq_refl eq_refl) eq_refl).
  vm_compute. reflexivity.
Defined.

Lemma bundle_metadata_errors_witness :
  let H := Host (Js.lit "darwin") (Js.join (Js.lit "/"))
             (fun _ => Js.lit "/Applications") (fun p => p) 47
             (fun _ => None) (fun _ _ => true)
             (fun _ => SpawnResult 1 [] [Js.lit "no such file"])
             ShellQuote.tokens (fun _ => Found (Js.lit "Game"))
             (fun p => p) (fun _ => Js.lit "/games/app") in
  launchExecutable H (Js.lit "/Applications/Game.APP/") [] (Options None false)
  = inl (Error (Js.lit "plutil failed with code 1") None).
Proof.
  intros H.
  refine (proj1 (@bundle_metadata_errors H (Js.lit "/Applications/Game.APP/")
                   [] (Options None false) eq_refl _) _).
  - vm_compute. reflexivity.
  - simpl. discriminate.
Defined.

(** X19. Under the model of the tokenizer, an isolated launch without
    arguments hands the sandboxed program a last argument that is the
    closing brace. *)
Theorem sandbox_stray_brace (profile fullExec : Js.str) :
  ~ In ShellQuote.backslash profile -> ~ In ShellQuote.dollar profile ->
  ~ In ShellQuote.backslash fullExec -> ~ In ShellQuote.dollar fullExec ->
  let cmd := escape fullExec ++ Js.lit " " ++ Js.join (Js.lit " ") (map escape []) in
  parse (Js.lit "sandbox-exec -f " ++ escape profile ++ Js.lit " " ++ cmd
         ++ Js.lit "}")
  = Tokens [Js.lit "sandbox-exec"; Js.lit "-f"; profile; fullExec; Js.lit "}"].
Proof.
  intros Hp1 Hp2 Hf1 Hf2 cmd. subst cmd. unfold parse.
  change (scan false None []
            (Js.lit "sandbox-exec -f " ++ escape profile ++ Js.lit " "
             ++ (escape fullExec ++ Js.lit " "
                 ++ Js.join (Js.lit " ") (map escape [])) ++ Js.lit "}"))
    with (scan false None [Js.lit "-f"; Js.lit "sandbox-exec"]
            (escape profile ++ Js.lit " "
             ++ (escape fullExec ++ Js.lit " " ++ []) ++ Js.lit "}")).
  rewrite scan_escaped_word by assumption.
  change (scan false (Some profile) [Js.lit "-f"; Js.lit "sandbox-exec"]
            (Js.lit " " ++ (escape fullExec ++ Js.lit " " ++ [])
             ++ Js.lit "}"))
    with (scan false None [profile; Js.lit "-f"; Js.lit "sandbox-exec"]
            ((escape fullExec ++ Js.lit " " ++ []) ++ Js.lit "}")).
  rewrite <- app_assoc.
  rewrite scan_escaped_word by assumption.
  reflexivity.
Qed.

Lemma sandbox_stray_brace_witness :
  parse (Js.lit "sandbox-exec -f "
         ++ escape (Js.lit "/games/app/.itch/isolate-app.sb") ++ Js.lit " "
         ++ (escape (Js.lit "/games/app/Game.app/Contents/MacOS/Game")
             ++ Js.lit " " ++ Js.join (Js.lit " ") (map escape []))
         ++ Js.lit "}")
  = Tokens [Js.lit "sandbox-exec"; Js.lit "-f";
            Js.lit "/games/app/.itch/isolate-app.sb";
            Js.lit "/games/app/Game.app/Contents/MacOS/Game"; Js.lit "}"].
Proof.
  apply sandbox_stray_brace; vm_compute; intuition discriminate.
Defined.

(** * Further properties of the API client *)

(** ** [ensureArray] *)

(** X21. Whatever comes out of [ensureArray] is truthy and is either the
    empty array or a value with a truthy [length], so that reading its
    [length] never throws; applying [ensureArray] again changes nothing. *)
Theorem ensureArray_idempotent (v : value) :
  ensureArray (ensureArray v) = ensureArray v
  /\ toBoolean (ensureArray v) = true
  /\ (ensureArray v = Array []
      \/ toBoolean (length_of (ensureArray v)) = true).
Proof.
  unfold ensureArray.
  destruct (toBoolean v) eqn:Hv; simpl.
  - destruct (toBoolean (length_of v)) eqn:Hlen; simpl.
    + rewrite Hv, Hlen. simpl.
      split; [reflexivity|]. split; [reflexivity | right; reflexivity].
    + split; [reflexivity|]. split; [reflexivity | left; reflexivity].
  - split; [reflexivity|]. split; [reflexivity | left; reflexivity].
Qed.

(** ** [isNetworkError] *)

Section NetworkErrorFacts.

Variable ToString : value -> option Js.str.

Lemma is_string_spec (v : value) (s : string) :
  is_string v s = true <-> v = String (Js.lit s).
Proof.
  destruct v; simpl; try (split; [discriminate | intros Heq; discriminate]).
  unfold Js.eqb. destruct (list_eq_dec N.eq_dec s0 (Js.lit s)) as [->|Hne].
  - split; reflexivity.
  - split; [discriminate | intros Heq; injection Heq as Heq; contradiction].
Qed.

Lemma test_getaddrinfo (text : Js.str) :
  Regex.test re_getaddrinfo text = true
  <-> exists pre post, text = pre ++ Js.lit "getaddrinfo" ++ post.
Proof.
  rewrite test_spec. simpl. split.
  - intros [pre [mid [post [-> [Hmid _]]]]].
    apply matches_text in Hmid; [|discriminate]. subst mid.
    exists pre, post. reflexivity.
  - intros [pre [post ->]]. exists pre, (Js.lit "getaddrinfo"), post.
    repeat split; try discriminate.
    apply matches_text; [discriminate | reflexivity].
Qed.

(** X22. [isNetworkError] gives [true] exactly for an object whose [code] is
    the string ENOTFOUND or ECONNRESET, or is the string ENOENT while its
    [message], as a string, holds the text getaddrinfo. *)
Theorem isNetworkError_true (v : value) :
  isNetworkError ToString v = Returns (Boolean true)
  <-> exists props,
        v = Object props
        /\ let code := lookup (Js.lit "code") props in
           code = String (Js.lit "ENOTFOUND")
           \/ code = String (Js.lit "ECONNRESET")
           \/ (code = String (Js.lit "ENOENT")
               /\ exists pre post,
                    ToString (lookup (Js.lit "message") props)
                    = Some (pre ++ Js.lit "getaddrinfo" ++ post)).
Proof.
  split.
  - destruct v as [| | | | |items|props]; simpl; try discriminate.
    unfold isNetworkError. simpl.
    destruct (toBoolean (lookup (Js.lit "code") props)) eqn:Htruthy; simpl.
    2: { intros Heq. injection Heq as Heq. rewrite Heq in Htruthy.
         discriminate. }
    intros Hres. exists props. split; [reflexivity|]. cbv zeta.
    destruct (is_string (lookup (Js.lit "code") props) "ENOTFOUND") eqn:H1.
    { left. apply is_string_spec, H1. }
    destruct (is_string (lookup (Js.lit "code") props) "ECONNRESET") eqn:H2.
    { right. left. apply is_string_spec, H2. }
    destruct (is_string (lookup (Js.lit "code") props) "ENOENT") eqn:H3;
      [|discriminate].
    right. right. split; [apply is_string_spec, H3|].
    destruct (ToString (lookup (Js.lit "message") props)) as [text|];
      [|discriminate].
    injection Hres as Htest. apply test_getaddrinfo in Htest as [pre [post ->]].
    exists pre, post. reflexivity.
  - intros [props [-> Hcode]]. cbv zeta in Hcode.
    unfold isNetworkError. simpl.
    destruct Hcode as [Hc|[Hc|[Hc [pre [post Hmsg]]]]]; rewrite Hc; simpl;
      try reflexivity.
    rewrite Hmsg.
    assert (Htest : Regex.test re_getaddrinfo
                      (pre ++ Js.lit "getaddrinfo" ++ post) = true)
      by (apply test_getaddrinfo; exists pre, post; reflexivity).
    rewrite Htest. reflexivity.
Qed.

(** X23. [isNetworkError] throws on [null], whose type is "object" and whose
    [code] cannot be read, and otherwise only when the [code] is ENOENT
    and the [message] cannot be turned into a string. Its result is not
    always a boolean: for an array it is [undefined], and for an object
    whose [code] is missing or falsy it is that [code]. For [undefined],
    a boolean, a number or a string it is [false]. *)
Theorem isNetworkError_edges (v : value) :
  (isNetworkError ToString v = Throws
   <-> v = Null
       \/ exists props,
            v = Object props
            /\ lookup (Js.lit "code") props = String (Js.lit "ENOENT")
            /\ ToString (lookup (Js.lit "message") props) = None)
  /\ (typeof_object v = false ->
      isNetworkError ToString v = Returns (Boolean false))
  /\ (forall items, isNetworkError ToString (Array items) = Returns Undefined)
  /\ (forall props,
        toBoolean (lookup (Js.lit "code") props) = false ->
        isNetworkError ToString (Object props)
        = Returns (lookup (Js.lit "code") props)).
Proof.
  split; [|split; [|split]].
  - split.
    + destruct v as [| | | | |items|props]; simpl; try discriminate.
      * intros _. left. reflexivity.
      * unfold isNetworkError. simpl.
        destruct (toBoolean (lookup (Js.lit "code") props)); simpl;
          [|discriminate].
        destruct (is_string _ "ENOTFOUND"); [discriminate|].
        destruct (is_string _ "ECONNRESET"); [discriminate|].
        destruct (is_string _ "ENOENT") eqn:H3; [|discriminate].
        destruct (ToString _) eqn:Hmsg; [discriminate|].
        intros _. right. exists props.
        repeat split; [apply is_string_spec, H3 | exact Hmsg].
    + intros [->|[props [-> [Hcode Hmsg]]]]; [reflexivity|].
      unfold isNetworkError. simpl. rewrite Hcode. simpl.
      rewrite Hmsg. reflexivity.
  - intros Htype. unfold isNetworkError. rewrite Htype. reflexivity.
  - intros items. reflexivity.
  - intros props Hfalsy. unfold isNetworkError. simpl.
    rewrite Hfalsy. reflexivity.
Qed.

End NetworkErrorFacts.

(** * Further properties of the outcome and of the patterns *)

(** ** The exit code in the reason of a crash *)

Lemma lit_injective (s t : string) : Js.lit s = Js.lit t -> s = t.
Proof.
  unfold Js.lit. intros Heq.
  assert (Hlist : list_ascii_of_string s = list_ascii_of_string t).
  { revert Heq. generalize (list_ascii_of_string s) (list_ascii_of_string t).
    intros l. induction l as [|a l IH]; intros [|b l'] Heq;
      try discriminate; [reflexivity|].
    simpl in Heq. injection Heq as Hab Hrest.
    f_equal; [|apply IH, Hrest].
    rewrite <- (ascii_N_embedding a), <- (ascii_N_embedding b), Hab.
    reflexivity. }
  rewrite <- (string_of_list_ascii_of_string s),
          <- (string_of_list_ascii_of_string t), Hlist.
  reflexivity.
Qed.

Lemma to_int_proper (z : Z) :
  Z.to_int z <> Decimal.Pos Decimal.Nil /\ Z.to_int z <> Decimal.Neg Decimal.Nil.
Proof.
  destruct z as [|p|p]; simpl; split; try discriminate;
    intros Heq; injection Heq as Heq;
    apply (DecimalPos.Unsigned.to_uint_nonnil p), Heq.
Qed.

Lemma of_Z_injective (a b : Z) : Js.of_Z a = Js.of_Z b -> a = b.
Proof.
  unfold Js.of_Z. intros Heq. apply lit_injective in Heq.
  apply (f_equal NilZero.int_of_string) in Heq.
  destruct (to_int_proper a) as [Ha1 Ha2], (to_int_proper b) as [Hb1 Hb2].
  rewrite !NilZero.isi in Heq by assumption.
  injection Heq as Heq. apply DecimalZ.to_int_inj, Heq.
Qed.

(** X20. The outcome of the [sh] step tells the exit code: two steps with the
    same outcome either both ended with the code zero, or ended with the
    same code for the same executable path. *)
Theorem crash_identifies_exit_code (H H' : host)
    (exePath exePath' fullCommand fullCommand' : Js.str) :
  let exit_of (H : host) (exePath fullCommand : Js.str) :=
    let tokens := shellQuote_parse H fullCommand in
    code (spawn H (SpawnRequest (hd_error tokens) (tl tokens)
                     (Some (path_dirname H exePath)))) in
  sh H exePath fullCommand = sh H' exePath' fullCommand' ->
  (exit_of H exePath fullCommand = 0 /\ exit_of H' exePath' fullCommand' = 0)
  \/ (exit_of H exePath fullCommand = exit_of H' exePath' fullCommand'
      /\ exePath = exePath').
Proof.
  intros exit_of. unfold sh. fold (exit_of H exePath fullCommand).
  fold (exit_of H' exePath' fullCommand').
  destruct (Z.eqb_spec (exit_of H exePath fullCommand) 0) as [Ha|Ha],
           (Z.eqb_spec (exit_of H' exePath' fullCommand') 0) as [Hb|Hb];
    simpl; try discriminate.
  - intros _. left. split; assumption.
  - intros Heq. injection Heq as Hpath Hreason.
    apply of_Z_injective in Hreason.
    right. split; assumption.
Qed.

Lemma crash_identifies_exit_code_witness :
  let H := sample_host [] 3 in
  code (spawn H (SpawnRequest None [] None)) = 3.
Proof.
  intros H.
  destruct (@crash_identifies_exit_code H H (Js.lit "/games/app/game")
              (Js.lit "/games/app/game") (Js.lit "game") (Js.lit "game")
              eq_refl) as [[Hzero _]|[_ _]].
  - discriminate Hzero.
  - reflexivity.
Defined.

(** ** The penalty and force-to-zero patterns with [.*] *)

Lemma matches_star_dot (w : Js.str) :
  Regex.matches (Regex.Star Regex.dot) w
  <-> Forall (fun x => x <> 10 /\ x <> 13 /\ x <> 8232 /\ x <> 8233)%N w.
Proof.
  assert (Hdot : forall x,
             negb (N.eqb x 10 || N.eqb x 13 || N.eqb x 8232 || N.eqb x 8233)
             = true
             <-> (x <> 10 /\ x <> 13 /\ x <> 8232 /\ x <> 8233)%N).
  { intros x.
    destruct (N.eqb_spec x 10), (N.eqb_spec x 13), (N.eqb_spec x 8232),
      (N.eqb_spec x 8233); simpl; split; intros Hx;
      try discriminate; try reflexivity; try tauto; repeat split; assumption. }
  split.
  - intros Hm. remember (Regex.Star Regex.dot) as e eqn:He.
    induction Hm as [| | | | |r|r u v Hu _ _ IHv]; try discriminate.
    + constructor.
    + injection He as ->. apply Forall_app. split; [|apply IHv; reflexivity].
      unfold Regex.dot in Hu. inversion Hu as [|p c Hc| | | | |]; subst.
      constructor; [apply Hdot, Hc | constructor].
  - intros Hall. induction Hall as [|c rest Hc _ IH].
    + constructor.
    + apply (@Regex.MStarApp _ [c] rest); [|exact IH].
      constructor. apply Hdot, Hc.
Qed.

Lemma spanning_pattern_spec (a b : string) (p : Js.str) :
  Js.lit a <> [] -> Js.lit b <> [] ->
  Regex.test
    (Regex.Pattern false
       (Regex.Cat (Regex.text_i a)
          (Regex.Cat (Regex.Star Regex.dot) (Regex.text_i b))) true) p = true
  <-> exists before head mid tail,
        p = before ++ head ++ mid ++ tail
        /\ map Js.upper_unit head = map Js.upper_unit (Js.lit a)
        /\ Forall (fun x => x <> 10 /\ x <> 13 /\ x <> 8232 /\ x <> 8233)%N mid
        /\ map Js.upper_unit tail = map Js.upper_unit (Js.lit b).
Proof.
  intros Ha Hb. rewrite test_spec. simpl Regex.body. split.
  - intros [pre [m [post [-> [Hm [_ Hend]]]]]].
    rewrite (Hend eq_refl), app_nil_r.
    apply cat_inv in Hm as [head [rest [-> [Hhead Hrest]]]].
    apply cat_inv in Hrest as [mid [tail [-> [Hmid Htail]]]].
    exists pre, head, mid, tail.
    split; [reflexivity|].
    split; [apply matches_text_i; assumption|].
    split; [apply matches_star_dot, Hmid | apply matches_text_i; assumption].
  - intros [before [head [mid [tail [-> [Hhead [Hmid Htail]]]]]]].
    exists before, (head ++ mid ++ tail), [].
    rewrite app_nil_r. repeat split; try discriminate.
    apply Regex.MCat; [apply matches_text_i; assumption|].
    apply Regex.MCat;
      [apply matches_star_dot, Hmid | apply matches_text_i; assumption].
Qed.

(** X10. The uninstaller penalty applies exactly to the paths that hold unins
    somewhere, in any letter case, and later end in .exe, with no line
    terminator in between; the redistributable rule likewise with
    vcredist. What lies between may hold path separators, so unins or
    vcredist in a directory name counts. *)
Theorem spanning_patterns_spec (p : Js.str) :
  (Regex.test re_unins p = true
   <-> exists before head mid tail,
         p = before ++ head ++ mid ++ tail
         /\ map Js.upper_unit head = Js.lit "UNINS"
         /\ Forall (fun x => x <> 10 /\ x <> 13 /\ x <> 8232 /\ x <> 8233)%N
                   mid
         /\ map Js.upper_unit tail = Js.lit ".EXE")
  /\ (Regex.test re_vcredist p = true
      <-> exists before head mid tail,
            p = before ++ head ++ mid ++ tail
            /\ map Js.upper_unit head = Js.lit "VCREDIST"
            /\ Forall (fun x => x <> 10 /\ x <> 13 /\ x <> 8232 /\ x <> 8233)%N
                      mid
            /\ map Js.upper_unit tail = Js.lit ".EXE").
Proof.
  split.
  - apply (@spanning_pattern_spec "unins" ".exe"); discriminate.
  - apply (@spanning_pattern_spec "vcredist" ".exe"); discriminate.
Qed.

(** ** The shared-library and shell-script patterns *)

(** X24. The shell-script bonus goes to every path that holds .sh
    anywhere, and the shared-library rule applies to every path that
    holds .so or .dylib anywhere, in lower case only: neither pattern is
    tied to the end of the path. *)
Theorem suffix_patterns_unanchored (p : Js.str) :
  (Regex.test re_sh p = true
   <-> exists pre post, p = pre ++ Js.lit ".sh" ++ post)
  /\ (Regex.test re_shared p = true
      <-> exists pre post,
            p = pre ++ Js.lit ".so" ++ post
            \/ p = pre ++ Js.lit ".dylib" ++ post).
Proof.
  split.
  - rewrite test_spec. simpl. split.
    + intros [pre [mid [post [-> [Hmid _]]]]].
      apply matches_text in Hmid; [|discriminate]. subst mid.
      exists pre, post. reflexivity.
    + intros [pre [post ->]]. exists pre, (Js.lit ".sh"), post.
      repeat split; try discriminate.
      apply matches_text; [discriminate | reflexivity].
  - rewrite test_spec. simpl Regex.body. split.
    + intros [pre [mid [post [-> [Hmid _]]]]].
      apply cat_inv in Hmid as [u [v [-> [Hu Hv]]]].
      apply (@matches_text (Js.lit ".")) in Hu; [|discriminate]. subst u.
      exists pre, post.
      apply alt_inv in Hv as [Hv|Hv];
        apply matches_text in Hv; try discriminate; subst v;
        [left | right]; reflexivity.
    + intros [pre [post [-> | ->]]].
      * exists pre, (Js.lit ".so"), post. repeat split; try discriminate.
        apply (@Regex.MCat _ _ (Js.lit ".") (Js.lit "so")).
        -- apply (@matches_text (Js.lit ".")); [discriminate | reflexivity].
        -- apply Regex.MAltL. apply matches_text; [discriminate | reflexivity].
      * exists pre, (Js.lit ".dylib"), post. repeat split; try discriminate.
        apply (@Regex.MCat _ _ (Js.lit ".") (Js.lit "dylib")).
        -- apply (@matches_text (Js.lit ".")); [discriminate | reflexivity].
        -- apply Regex.MAltR. apply matches_text; [discriminate | reflexivity].
Qed.
